(** * Ledger core of the national-budget blockchain: a shallow embedding

    The development follows the Python packages [blockchain.core]
    (hash, merkle, block, state, tx_rules, ledger), [blockchain.identity]
    and [blockchain.consensus.rotation].

    Conventions of the embedding.
    - A Python [str] is a [string] whose characters are code points below
      256; [encode_utf8] spells out the two-byte form of the upper half.
    - A Python [int] is a [Z].
    - [Optional[T]] is [option T]; Python's [None] is Rocq's [None].
    - A [dict] that is only looked up by key (accounts, asset holdings, the
      validator registry's index) is a [gmap]; the mempool, whose iteration
      order decides the order of the transactions of a block, is an
      association list kept in insertion order.
    - An exception ends a call with [Raise]. *)

From Stdlib Require Import ZArith Ascii String DecimalString.
From stdpp Require Import gmap strings list sorting.

Local Open Scope Z_scope.

(** ** Results of calls that may raise *)

Inductive exn : Type := TypeError | IndexError | RecursionError.

Inductive result (A : Type) : Type :=
| Ok (a : A)
| Raise (e : exn).
Arguments Ok {A} a.
Arguments Raise {A} e.

Definition bind {A B} (r : result A) (k : A → result B) : result B :=
  match r with
  | Ok a => k a
  | Raise e => Raise e
  end.

(** ** hashlib.sha256 (FIPS 180-4), on 32-bit words held in [Z] *)

Module SHA256.

Definition w32 (x : Z) : Z := x mod 2 ^ 32.
Definition add32 (x y : Z) : Z := w32 (x + y).
Definition rotr (n x : Z) : Z :=
  Z.lor (Z.shiftr x n) (w32 (Z.shiftl x (32 - n))).
Definition not32 (x : Z) : Z := Z.lxor x 0xffffffff.

Definition Ch (x y z : Z) : Z := Z.lxor (Z.land x y) (Z.land (not32 x) z).
Definition Maj (x y z : Z) : Z :=
  Z.lxor (Z.lxor (Z.land x y) (Z.land x z)) (Z.land y z).
Definition Sigma0 (x : Z) : Z :=
  Z.lxor (Z.lxor (rotr 2 x) (rotr 13 x)) (rotr 22 x).
Definition Sigma1 (x : Z) : Z :=
  Z.lxor (Z.lxor (rotr 6 x) (rotr 11 x)) (rotr 25 x).
Definition sigma0 (x : Z) : Z :=
  Z.lxor (Z.lxor (rotr 7 x) (rotr 18 x)) (Z.shiftr x 3).
Definition sigma1 (x : Z) : Z :=
  Z.lxor (Z.lxor (rotr 17 x) (rotr 19 x)) (Z.shiftr x 10).

(** The round constants are the first 32 bits of the fractional parts of
    the cube roots of the first 64 primes, the initial hash value those of
    the square roots of the first 8. *)
Definition is_prime (n : Z) : bool :=
  forallb (λ d, negb (n mod d =? 0)) (seqZ 2 (n - 2)).

Definition primes : list Z := filter (λ n, is_prime n = true) (seqZ 2 310).

(** The integer cube root, one bit at a time from bit [k - 1] down. *)
Fixpoint cube_root_bits (k : nat) (n r : Z) : Z :=
  match k with
  | O => r
  | S k' =>
      let c := r + 2 ^ Z.of_nat k' in
      cube_root_bits k' n (if c * c * c <=? n then c else r)
  end.

Definition cube_root (n : Z) : Z := cube_root_bits 36 n 0.

Definition K : list Z :=
  Eval vm_compute in (λ p, w32 (cube_root (p * 2 ^ 96))) <$> take 64 primes.

Definition H0 : list Z :=
  Eval vm_compute in (λ p, w32 (Z.sqrt (p * 2 ^ 64))) <$> take 8 primes.

(** Big-endian bytes of [x], [n] of them. *)
Fixpoint be_bytes (n : nat) (x : Z) : list Z :=
  match n with
  | O => []
  | S n' => be_bytes n' (Z.shiftr x 8) ++ [Z.land x 0xff]
  end.

(** The message followed by 0x80, zero bytes up to 56 modulo 64, and the
    bit length on eight bytes. *)
Definition pad_message (msg : list Z) : list Z :=
  let len := Z.of_nat (length msg) in
  let zeros := Z.to_nat ((55 - len) mod 64) in
  msg ++ [0x80] ++ replicate zeros 0 ++ be_bytes 8 (8 * len).

Fixpoint words_of_bytes (bs : list Z) : list Z :=
  match bs with
  | b0 :: b1 :: b2 :: b3 :: rest =>
      (Z.shiftl b0 24 + Z.shiftl b1 16 + Z.shiftl b2 8 + b3)
        :: words_of_bytes rest
  | _ => []
  end.

Fixpoint blocks_of_words (n : nat) (ws : list Z) : list (list Z) :=
  match n with
  | O => []
  | S n' => take 16 ws :: blocks_of_words n' (drop 16 ws)
  end.

(** The message schedule, newest word first. *)
Fixpoint extend_schedule (n : nat) (rev_w : list Z) : list Z :=
  match n with
  | O => rev_w
  | S n' =>
      let w := add32 (add32 (sigma1 (nth 1 rev_w 0)) (nth 6 rev_w 0))
                     (add32 (sigma0 (nth 14 rev_w 0)) (nth 15 rev_w 0)) in
      extend_schedule n' (w :: rev_w)
  end.

Definition schedule (block : list Z) : list Z :=
  rev (extend_schedule 48 (rev block)).

Definition round (st : list Z) (kw : Z * Z) : list Z :=
  match st with
  | [a; b; c; d; e; f; g; h] =>
      let t1 := add32 (add32 (add32 h (Sigma1 e)) (Ch e f g))
                      (add32 kw.1 kw.2) in
      let t2 := add32 (Sigma0 a) (Maj a b c) in
      [add32 t1 t2; a; b; c; add32 d t1; e; f; g]
  | _ => st
  end.

Definition compress (h : list Z) (block : list Z) : list Z :=
  zip_with add32 h (foldl round h (zip K (schedule block))).

Definition digest (msg : list Z) : list Z :=
  let ws := words_of_bytes (pad_message msg) in
  foldl compress H0 (blocks_of_words (length ws / 16) ws).

End SHA256.

(** ** Strings, bytes and hexadecimal text *)

Definition quote_char : ascii := ascii_of_nat 34.
Definition backslash_char : ascii := ascii_of_nat 92.

Definition hex_digit (d : Z) : ascii :=
  if d <? 10 then ascii_of_nat (Z.to_nat (48 + d))
  else ascii_of_nat (Z.to_nat (87 + d)).

(** [n] lowercase hexadecimal digits of [x], most significant first. *)
Fixpoint hex_of (n : nat) (x : Z) : string :=
  match n with
  | O => EmptyString
  | S n' => hex_of n' (Z.shiftr x 4) +:+ String (hex_digit (Z.land x 15)) EmptyString
  end.

Definition code_point (c : ascii) : Z := Z.of_nat (nat_of_ascii c).

(** [str.encode('utf-8')] for code points below 256. *)
Fixpoint encode_utf8 (s : string) : list Z :=
  match s with
  | EmptyString => []
  | String c s' =>
      let n := code_point c in
      if n <? 128 then n :: encode_utf8 s'
      else (0xc0 + Z.shiftr n 6) :: (0x80 + Z.land n 0x3f) :: encode_utf8 s'
  end.

Definition string_concat (l : list string) : string :=
  foldr String.app EmptyString l.

(** [hashlib.sha256(b).hexdigest()] *)
Definition sha256_hexdigest (b : list Z) : string :=
  string_concat (hex_of 8 <$> SHA256.digest b).

(** ** core/hash.py *)

Definition hash_data (data : string) : string :=
  sha256_hexdigest (encode_utf8 data).

(** *** json.dumps, as far as the two record shapes need it *)

Definition json_escape_char (c : ascii) : string :=
  let n := code_point c in
  if n =? 34 then String backslash_char (String quote_char EmptyString)
  else if n =? 92 then String backslash_char (String backslash_char EmptyString)
  else if n =? 10 then String backslash_char "n"
  else if n =? 13 then String backslash_char "r"
  else if n =? 9 then String backslash_char "t"
  else if n =? 8 then String backslash_char "b"
  else if n =? 12 then String backslash_char "f"
  else if (32 <=? n) && (n <=? 126) then String c EmptyString
  else String backslash_char ("u" +:+ hex_of 4 n).

Fixpoint json_escape (s : string) : string :=
  match s with
  | EmptyString => EmptyString
  | String c s' => json_escape_char c +:+ json_escape s'
  end.

Definition json_str (s : string) : string :=
  String quote_char (json_escape s +:+ String quote_char EmptyString).

Definition json_int (z : Z) : string := NilZero.string_of_int (Z.to_int z).

Definition json_opt_str (o : option string) : string :=
  match o with
  | None => "null"
  | Some s => json_str s
  end.

(** [json.dumps(d, sort_keys=True)] of a flat dict given as its items in
    key order, the values already rendered. *)
Fixpoint json_items (items : list (string * string)) : string :=
  match items with
  | [] => EmptyString
  | [(k, v)] => json_str k +:+ ": " +:+ v
  | (k, v) :: rest => json_str k +:+ ": " +:+ v +:+ ", " +:+ json_items rest
  end.

Definition json_object (items : list (string * string)) : string :=
  "{" +:+ json_items items +:+ "}".

(** ** core/types.py *)

Record Transaction : Type := {
  sender : string;
  recipient : string;
  amount : Z;
  data : option string;
  nonce : Z;
  signature : option string
}.

(** [merkle_root] is annotated [str], but [create_block] stores [None] there
    for an empty transaction list, hence the option. *)
Record BlockHeader : Type := {
  prev_hash : string;
  merkle_root : option string;
  timestamp : string;
  validator : string;
  header_nonce : Z;
  header_signature : option string
}.

Record Block : Type := {
  header : BlockHeader;
  transactions : list Transaction
}.

Record DigitalPublicAsset : Type := {
  asset_id : string;
  owner : string;
  dpa_amount : Z;
  dpa_data : option (gmap string string)
}.

Record Account : Type := {
  address : string;
  balance : Z;
  dpas : gmap string DigitalPublicAsset
}.

#[global] Instance Transaction_eq_dec : EqDecision Transaction.
Proof. solve_decision. Defined.
#[global] Instance BlockHeader_eq_dec : EqDecision BlockHeader.
Proof. solve_decision. Defined.
#[global] Instance Block_eq_dec : EqDecision Block.
Proof. solve_decision. Defined.

(** ** core/hash.py, continued: the two canonical hashes

    The dict of the record without its [signature] entry, dumped with its
    keys sorted. *)

Definition hash_transaction (tx : Transaction) : string :=
  hash_data (json_object
    [ ("amount", json_int (amount tx));
      ("data", json_opt_str (data tx));
      ("nonce", json_int (nonce tx));
      ("recipient", json_str (recipient tx));
      ("sender", json_str (sender tx)) ]).

Definition hash_block_header (h : BlockHeader) : string :=
  hash_data (json_object
    [ ("merkle_root", json_opt_str (merkle_root h));
      ("nonce", json_int (header_nonce h));
      ("prev_hash", json_str (prev_hash h));
      ("timestamp", json_str (timestamp h));
      ("validator", json_str (validator h)) ]).

(** ** core/merkle.py *)

Record MerkleTree : Type := {
  leaves : list string;
  root : option string
}.

(** [if len(nodes) % 2 != 0: nodes.append(nodes[-1])] *)
Definition pad_level (nodes : list string) : list string :=
  if Nat.odd (length nodes)
  then match last nodes with
       | Some x => nodes ++ [x]
       | None => nodes
       end
  else nodes.

(** The [for i in range(0, len(nodes), 2)] loop over a level of even
    length. *)
Fixpoint pair_hashes (nodes : list string) : list string :=
  match nodes with
  | a :: b :: rest => hash_data (a +:+ b) :: pair_hashes rest
  | _ => []
  end.

(** [_build_tree], the recursion bounded by [fuel]. On the empty list the
    Python recursion never reaches a one-element level and ends in
    [RecursionError]. *)
Fixpoint build_tree_fuel (fuel : nat) (nodes : list string) : result string :=
  match fuel with
  | O => Raise RecursionError
  | S fuel' =>
      match nodes with
      | [x] => Ok x
      | _ => build_tree_fuel fuel' (pair_hashes (pad_level nodes))
      end
  end.

Definition _build_tree (nodes : list string) : result string :=
  build_tree_fuel (length nodes) nodes.

(** [_build_tree] appends to the list it is given: the argument as the call
    leaves it. *)
Definition _build_tree_nodes (nodes : list string) : list string :=
  match nodes with
  | [x] => nodes
  | _ => pad_level nodes
  end.

(** [MerkleTree(data)]: [self.leaves] is the very list handed to
    [_build_tree], so it keeps the padding of the first level. *)
Definition MerkleTree_init (data : list string) : result MerkleTree :=
  match data with
  | [] => Ok {| leaves := []; root := None |}
  | _ =>
      let hashed := hash_data <$> data in
      bind (_build_tree hashed) (λ r,
        Ok {| leaves := _build_tree_nodes hashed; root := Some r |})
  end.

Definition get_merkle_root (t : MerkleTree) : option string := root t.

(** A proof is a list of (sibling hash, direction) pairs. *)
Definition merkle_proof : Type := list (string * string).

(** The [while len(level) > 1] loop of [get_proof]; [proof.append] in
    loop order is the cons of this recursion. A level of [n > 1] nodes is
    followed by one of fewer nodes, so [length level] iterations are
    enough ([get_proof_loop_unfold] below) and the branch of the exhausted
    bound is never taken. *)

Fixpoint get_proof_fuel (fuel : nat) (index : nat) (level : list string)
  : result merkle_proof :=
  if decide (length level ≤ 1)%nat then Ok []
  else
    match fuel with
    | O => Raise RecursionError
    | S fuel' =>
        let level' := pad_level level in
        let is_left := Nat.even index in
        let sibling_index := if is_left then (index + 1)%nat else (index - 1)%nat in
        match level' !! sibling_index with
        | None => Raise IndexError
        | Some sibling_hash =>
            bind (get_proof_fuel fuel' (index / 2)%nat (pair_hashes level'))
              (λ rest,
                 Ok ((sibling_hash, if is_left then "right" else "left") :: rest))
        end
    end.

Definition get_proof_loop (index : nat) (level : list string)
  : result merkle_proof :=
  get_proof_fuel (length level) index level.

(** [get_proof] returns the proof, or [None] for a hash that is no leaf.
    The first iteration pads [self.leaves] itself; the second component is
    the tree after the call. *)
Definition get_proof (t : MerkleTree) (data_hash : string)
  : result (option merkle_proof) * MerkleTree :=
  match list_find (λ x, x = data_hash) (leaves t) with
  | None => (Ok None, t)
  | Some (index, _) =>
      (bind (get_proof_loop index (leaves t)) (λ p, Ok (Some p)),
       {| leaves := if decide (length (leaves t) ≤ 1)%nat then leaves t
                    else pad_level (leaves t);
          root := root t |})
  end.

Definition verify_step (computed_hash : string) (item : string * string) : string :=
  let '(sibling_hash, direction) := item in
  if decide (direction = "left")
  then hash_data (sibling_hash +:+ computed_hash)
  else hash_data (computed_hash +:+ sibling_hash).

(** [verify_proof]; iterating over [None] raises [TypeError]. *)
Definition verify_proof (data_hash : string) (proof : option merkle_proof)
    (root_hash : option string) : result bool :=
  match proof with
  | None => Raise TypeError
  | Some p => Ok (bool_decide (Some (foldl verify_step data_hash p) = root_hash))
  end.

(** [t = MerkleTree(data); MerkleTree.verify_proof(h, t.get_proof(h),
    t.get_merkle_root())] *)
Definition merkle_round_trip (data : list string) (h : string) : result bool :=
  bind (MerkleTree_init data) (λ t,
    let '(p, t') := get_proof t h in
    bind p (λ p, verify_proof h p (get_merkle_root t'))).

(** ** core/block.py *)

(** [create_block]; [now] is the text of the clock reading,
    [str(time.time())]. The header's [nonce] and [signature] keep their
    dataclass defaults. *)
Definition create_block (now : string) (prev_block_hash : string)
    (txs : list Transaction) (proposer : string) : result Block :=
  let tx_hashes := hash_transaction <$> txs in
  bind (MerkleTree_init tx_hashes) (λ merkle_tree,
    Ok {| header := {| prev_hash := prev_block_hash;
                       merkle_root := get_merkle_root merkle_tree;
                       timestamp := now;
                       validator := proposer;
                       header_nonce := 0;
                       header_signature := None |};
          transactions := txs |}).

Definition is_block_valid (block prev_block : Block) : result bool :=
  if decide (prev_hash (header block) ≠ hash_block_header (header prev_block))
  then Ok false
  else
    let tx_hashes := hash_transaction <$> transactions block in
    bind (MerkleTree_init tx_hashes) (λ t,
      if decide (merkle_root (header block) ≠ get_merkle_root t)
      then Ok false
      else Ok true).

(** ** core/state.py *)

Record StateManager : Type := {
  accounts : gmap string Account;
  dpa_registry : gmap string DigitalPublicAsset;
  total_supply : Z
}.

Definition StateManager_init : StateManager :=
  {| accounts := ∅; dpa_registry := ∅; total_supply := 0 |}.

Definition set_accounts (s : StateManager) (m : gmap string Account) : StateManager :=
  {| accounts := m; dpa_registry := dpa_registry s; total_supply := total_supply s |}.

Definition new_account (addr : string) : Account :=
  {| address := addr; balance := 0; dpas := ∅ |}.

(** [get_account] hands out a reference to the object stored under
    [address], creating it first when absent. Accounts are never removed
    or replaced, so the reference is the key: the state after the call is
    [get_account s addr], and the object is read with [account_at]. *)
Definition get_account (s : StateManager) (addr : string) : StateManager :=
  match accounts s !! addr with
  | Some _ => s
  | None => set_accounts s (<[addr := new_account addr]> (accounts s))
  end.

Definition account_at (s : StateManager) (addr : string) : Account :=
  default (new_account addr) (accounts s !! addr).

Definition add_balance (delta : Z) (a : Account) : Account :=
  {| address := address a; balance := balance a + delta; dpas := dpas a |}.

Definition set_dpas (m : gmap string DigitalPublicAsset) (a : Account) : Account :=
  {| address := address a; balance := balance a; dpas := m |}.

Definition add_dpa_amount (delta : Z) (d : DigitalPublicAsset) : DigitalPublicAsset :=
  {| asset_id := asset_id d; owner := owner d;
     dpa_amount := dpa_amount d + delta; dpa_data := dpa_data d |}.

(** Writes through an account reference. *)
Definition update_account (s : StateManager) (addr : string)
    (f : Account → Account) : StateManager :=
  set_accounts s (alter f addr (accounts s)).

(** [str.split(sep)] for a one-character separator. *)
Fixpoint split (sep : ascii) (s : string) : list string :=
  match s with
  | EmptyString => [EmptyString]
  | String c s' =>
      if decide (c = sep) then EmptyString :: split sep s'
      else match split sep s' with
           | w :: ws => String c w :: ws
           | [] => [String c EmptyString]
           end
  end.

(** [tx.data and tx.data.startswith(p)] *)
Definition data_startswith (p : string) (d : option string) : bool :=
  match d with
  | Some s => String.prefix p s
  | None => false
  end.

(** [tx.data.split(":")[1]] *)
Definition data_dpa_id (d : option string) : string :=
  default EmptyString (split ":" (default EmptyString d) !! 1%nat).

Definition process_transaction (s : StateManager) (tx : Transaction) : StateManager :=
  if data_startswith "issue:" (data tx) then
    let dpa_id := data_dpa_id (data tx) in
    let new_dpa := {| asset_id := dpa_id; owner := recipient tx;
                      dpa_amount := amount tx;
                      dpa_data := Some {[ "source_tx" := sender tx ]} |} in
    let s1 := get_account s (recipient tx) in
    let s2 := update_account s1 (recipient tx)
                (λ a, set_dpas (<[dpa_id := new_dpa]> (dpas a)) a) in
    {| accounts := accounts s2; dpa_registry := dpa_registry s2;
       total_supply := total_supply s2 + amount tx |}
  else if data_startswith "transfer:" (data tx) then
    let dpa_id := data_dpa_id (data tx) in
    let s1 := get_account s (sender tx) in
    let s2 := get_account s1 (recipient tx) in
    match dpas (account_at s2 (sender tx)) !! dpa_id with
    | Some dpa_to_transfer =>
        if amount tx <=? dpa_amount dpa_to_transfer then
          let s3 := update_account s2 (sender tx)
                      (λ a, set_dpas (alter (add_dpa_amount (- amount tx)) dpa_id (dpas a)) a) in
          match dpas (account_at s3 (recipient tx)) !! dpa_id with
          | Some _ =>
              update_account s3 (recipient tx)
                (λ a, set_dpas (alter (add_dpa_amount (amount tx)) dpa_id (dpas a)) a)
          | None =>
              let new_dpa := {| asset_id := dpa_id; owner := recipient tx;
                                dpa_amount := amount tx;
                                dpa_data := dpa_data dpa_to_transfer |} in
              update_account s3 (recipient tx)
                (λ a, set_dpas (<[dpa_id := new_dpa]> (dpas a)) a)
          end
        else s2
    | None => s2
    end
  else
    let s1 := get_account s (sender tx) in
    let s2 := get_account s1 (recipient tx) in
    if amount tx <=? balance (account_at s2 (sender tx)) then
      let s3 := update_account s2 (sender tx) (add_balance (- amount tx)) in
      update_account s3 (recipient tx) (add_balance (amount tx))
    else s2.

Definition process_transactions (s : StateManager) (txs : list Transaction) : StateManager :=
  foldl process_transaction s txs.

Definition commit_block (s : StateManager) (block : Block) : StateManager :=
  process_transactions s (transactions block).

(** The sum over all accounts of the balance field. *)
Definition count_balance (_ : string) (a : Account) (acc : Z) : Z :=
  balance a + acc.

Definition sum_balances (s : StateManager) : Z :=
  map_fold count_balance 0 (accounts s).

(** Every account holds a zero balance. *)
Definition zero_balances (s : StateManager) : Prop :=
  map_Forall (λ _ a, balance a = 0) (accounts s).

(** What [addr] holds of the asset [dpa_id], if it has a record of it. *)
Definition dpa_holding (s : StateManager) (addr dpa_id : string) : option Z :=
  a ← accounts s !! addr; d ← dpas a !! dpa_id; Some (dpa_amount d).

(** ** Python dicts whose iteration order matters *)

Abbreviation pydict V := (list (string * V)).

Definition dict_contains {V} (k : string) (d : pydict V) : bool :=
  bool_decide (k ∈ d.*1).

(** [d[k] = v]: a present key keeps its place, a new one goes last. *)
Fixpoint dict_set {V} (d : pydict V) (k : string) (v : V) : pydict V :=
  match d with
  | [] => [(k, v)]
  | (k', v') :: d' =>
      if decide (k' = k) then (k, v) :: d' else (k', v') :: dict_set d' k v
  end.

Definition dict_values {V} (d : pydict V) : list V := d.*2.

(** ** core/tx_rules.py

    The validator holds the ledger's mempool object itself, which the
    ledger only ever mutates in place; it is passed here as an argument. *)

Definition validate_transaction (mempool : pydict Transaction) (tx : Transaction) : bool :=
  if bool_decide (nonce tx ∈
       nonce <$> filter (λ t, sender t = sender tx) (dict_values mempool))
  then false
  else if amount tx <=? 0 then false
  else if bool_decide (sender tx = EmptyString) || bool_decide (recipient tx = EmptyString)
  then false
  else true.

(** ** identity/validator.py, identity/registry.py *)

Record Validator : Type := {
  validator_id : string;
  public_key : string;
  stake : Z;
  is_active : bool
}.

Record ValidatorRegistry : Type := {
  registry_validators : pydict Validator
}.

Definition ValidatorRegistry_init : ValidatorRegistry :=
  {| registry_validators := [] |}.

Definition add_validator (r : ValidatorRegistry) (vid pk : string) (st : Z)
  : bool * ValidatorRegistry :=
  if dict_contains vid (registry_validators r) then (false, r)
  else (true,
        {| registry_validators :=
             dict_set (registry_validators r) vid
               {| validator_id := vid; public_key := pk; stake := st;
                  is_active := true |} |}).

Definition get_validators (r : ValidatorRegistry) : list Validator :=
  dict_values (registry_validators r).

(** ** consensus/rotation.py *)

(** [sorted(validators, key=lambda v: v.validator_id)]: the stable sort on
    the code-point order of the ids. *)
Fixpoint insert_by_id (v : Validator) (l : list Validator) : list Validator :=
  match l with
  | [] => [v]
  | w :: l' =>
      if String.leb (validator_id v) (validator_id w) then v :: w :: l'
      else w :: insert_by_id v l'
  end.

Definition sorted_by_id (l : list Validator) : list Validator :=
  foldr insert_by_id [] l.

(** Ascending order of the ids. *)
Definition id_le (v w : Validator) : Prop :=
  String.le (validator_id v) (validator_id w).

(** [num_validators] is always assigned together with [validators], as
    its length; it is kept as that. *)
Record ProposerRotation : Type := {
  validators : list Validator
}.

Definition num_validators (r : ProposerRotation) : Z :=
  Z.of_nat (length (validators r)).

Definition ProposerRotation_init (vs : list Validator) : ProposerRotation :=
  {| validators := sorted_by_id vs |}.

Definition update_validators (r : ProposerRotation) (new_validators : list Validator)
  : ProposerRotation :=
  {| validators := sorted_by_id new_validators |}.

Definition get_current_proposer (r : ProposerRotation) (block_height : Z)
  : option string :=
  match validators r with
  | [] => None
  | _ =>
      let proposer_index := (block_height - 1) mod num_validators r in
      validator_id <$> validators r !! Z.to_nat proposer_index
  end.

(** ** core/ledger.py *)

Record Ledger : Type := {
  chain : list Block;
  mempool : pydict Transaction;
  state_manager : StateManager;
  validator_registry : ValidatorRegistry;
  proposer_rotation : ProposerRotation
}.

Definition Ledger_init (genesis_block : Block) (registry : ValidatorRegistry) : Ledger :=
  {| chain := [genesis_block];
     mempool := [];
     state_manager := commit_block StateManager_init genesis_block;
     validator_registry := registry;
     proposer_rotation := ProposerRotation_init (get_validators registry) |}.

Definition set_mempool (l : Ledger) (m : pydict Transaction) : Ledger :=
  {| chain := chain l; mempool := m; state_manager := state_manager l;
     validator_registry := validator_registry l;
     proposer_rotation := proposer_rotation l |}.

(** [self.chain[-1]] *)
Definition get_latest_block (l : Ledger) : result Block :=
  match last (chain l) with
  | Some b => Ok b
  | None => Raise IndexError
  end.

Definition add_transaction (l : Ledger) (tx : Transaction) : bool * Ledger :=
  let tx_hash := hash_transaction tx in
  if dict_contains tx_hash (mempool l) then (false, l)
  else if negb (validate_transaction (mempool l) tx) then (false, l)
  else (true, set_mempool l (dict_set (mempool l) tx_hash tx)).

Definition propose_new_block (now : string) (l : Ledger) (proposer_id : string)
  : result (option Block * Ledger) :=
  bind (get_latest_block l) (λ latest_block,
    if decide (Some proposer_id ≠
               get_current_proposer (proposer_rotation l)
                 (header_nonce (header latest_block) + 1))
    then Ok (None, l)
    else
      let transactions_to_include := dict_values (mempool l) in
      match transactions_to_include with
      | [] => Ok (None, l)
      | _ =>
          bind (create_block now (hash_block_header (header latest_block))
                  transactions_to_include proposer_id)
            (λ new_block, Ok (Some new_block, set_mempool l []))
      end).

Definition add_block (l : Ledger) (new_block : Block) : result (bool * Ledger) :=
  bind (get_latest_block l) (λ latest_block,
    bind (is_block_valid new_block latest_block) (λ valid,
      if negb valid then Ok (false, l)
      else Ok (true,
               {| chain := chain l ++ [new_block];
                  mempool := mempool l;
                  state_manager := commit_block (state_manager l) new_block;
                  validator_registry := validator_registry l;
                  proposer_rotation := proposer_rotation l |}))).

(** ** consensus/consensus.py *)

Definition run_consensus_round (now : string) (l : Ledger) (proposer_id : string)
  : result (bool * Ledger) :=
  bind (propose_new_block now l proposer_id) (λ '(new_block, l1),
    match new_block with
    | None => Ok (false, l1)
    | Some b => add_block l1 b
    end).

(** ** Runs of the ledger *)

(** A sequence of [add_block] calls; a rejected block leaves the ledger as
    it was, so only the accepted ones show in the result. *)
Fixpoint add_blocks (l : Ledger) (bs : list Block) : result Ledger :=
  match bs with
  | [] => Ok l
  | b :: bs' => bind (add_block l b) (λ '(_, l'), add_blocks l' bs')
  end.

(** Every block but the first names the hash of the header before it. *)
Definition chain_linked (c : list Block) : Prop :=
  ∀ i prev cur,
    c !! i = Some prev → c !! S i = Some cur →
    prev_hash (header cur) = hash_block_header (header prev).

(** The number of mempool entries stored under the key [k]. *)
Definition entries_under {V} (k : string) (d : pydict V) : nat :=
  length (filter (λ kv, kv.1 = k) d).

(** ** Sample data for the concrete runs *)

Module Sample.

Definition zero_hash : string :=
  "0000000000000000000000000000000000000000000000000000000000000000".

Definition clock : string := "1700000000.0".

Definition genesis_block : Block :=
  {| header := {| prev_hash := zero_hash; merkle_root := None;
                  timestamp := "0"; validator := "genesis";
                  header_nonce := 0; header_signature := None |};
     transactions := [] |}.

(** [v2] registers before [v1]. *)
Definition registry : ValidatorRegistry :=
  (add_validator (add_validator ValidatorRegistry_init "v2" "pk2" 0).2
     "v1" "pk1" 0).2.

Definition v1 : Validator :=
  {| validator_id := "v1"; public_key := "pk1"; stake := 0; is_active := true |}.

Definition v2 : Validator :=
  {| validator_id := "v2"; public_key := "pk2"; stake := 0; is_active := true |}.

Definition tx_ab : Transaction :=
  {| sender := "A"; recipient := "B"; amount := 50; data := None;
     nonce := 1; signature := None |}.

Definition tx_issue (to dpa : string) (n : Z) : Transaction :=
  {| sender := "treasury"; recipient := to; amount := n;
     data := Some ("issue:" +:+ dpa); nonce := 0; signature := None |}.

Definition tx_transfer (from to dpa : string) (n : Z) : Transaction :=
  {| sender := from; recipient := to; amount := n;
     data := Some ("transfer:" +:+ dpa); nonce := 0; signature := None |}.

(** A sender spelled with a quote, U+00E9, DEL, a line feed and a
    backslash. *)
Definition tx_escaped : Transaction :=
  {| sender := String quote_char (String (ascii_of_nat 233)
                 (String (ascii_of_nat 127) (String (ascii_of_nat 10)
                    (String backslash_char EmptyString))));
     recipient := "B"; amount := -5; data := Some "issue:X"; nonce := 12;
     signature := Some "sig" |}.

Definition ledger0 : Ledger := Ledger_init genesis_block registry.

Definition ledger1 : Ledger := (add_transaction ledger0 tx_ab).2.

(** The block [v1] assembles from [tx_ab] on top of the genesis block. *)
Definition block1 : Block :=
  match create_block clock (hash_block_header (header genesis_block))
          [tx_ab] "v1" with
  | Ok b => b
  | Raise _ => genesis_block
  end.

(** A block that does not name the genesis header. *)
Definition stray_block : Block :=
  {| header := {| prev_hash := zero_hash; merkle_root := None;
                  timestamp := clock; validator := "v1";
                  header_nonce := 0; header_signature := None |};
     transactions := [] |}.

(** A state in which [A] owns 100 units of currency. *)
Definition funded_state : StateManager :=
  {| accounts := {[ "A" := {| address := "A"; balance := 100; dpas := ∅ |} ]};
     dpa_registry := ∅;
     total_supply := 0 |}.

(** Three validators, a chain of two blocks and one pending transaction:
    [v3] registers first, [tx_ab] is admitted, a consensus round of [v1]
    commits it, and [tx_cd] is admitted afterwards. *)
Definition v3 : Validator :=
  {| validator_id := "v3"; public_key := "pk3"; stake := 0; is_active := true |}.

Definition registry3 : ValidatorRegistry :=
  (add_validator
     (add_validator
        (add_validator ValidatorRegistry_init "v3" "pk3" 0).2 "v1" "pk1" 0).2
     "v2" "pk2" 0).2.

Definition tx_cd : Transaction :=
  {| sender := "C"; recipient := "D"; amount := 7; data := None;
     nonce := 1; signature := None |}.

Definition later : string := "1700000060.0".

Definition ledger3_pending : Ledger :=
  (add_transaction (Ledger_init genesis_block registry3) tx_ab).2.

Definition ledger3_committed : Ledger :=
  match run_consensus_round clock ledger3_pending "v1" with
  | Ok (_, l) => l
  | Raise _ => ledger3_pending
  end.

Definition ledger3 : Ledger := (add_transaction ledger3_committed tx_cd).2.

(** The block [v1] assembles from [tx_cd] on top of [block1]. *)
Definition block2 : Block :=
  match create_block later (hash_block_header (header block1)) [tx_cd] "v1" with
  | Ok b => b
  | Raise _ => genesis_block
  end.

End Sample.

(** ** identity/registry.py, the remaining operations *)

(** [d.get(k)] *)
Fixpoint dict_get {V} (d : pydict V) (k : string) : option V :=
  match d with
  | [] => None
  | (k', v) :: d' => if decide (k' = k) then Some v else dict_get d' k
  end.

(** [del d[k]] for a present key; the other entries keep their order. *)
Fixpoint dict_del {V} (d : pydict V) (k : string) : pydict V :=
  match d with
  | [] => []
  | (k', v) :: d' => if decide (k' = k) then d' else (k', v) :: dict_del d' k
  end.

Definition remove_validator (r : ValidatorRegistry) (vid : string)
  : bool * ValidatorRegistry :=
  if negb (dict_contains vid (registry_validators r)) then (false, r)
  else (true, {| registry_validators := dict_del (registry_validators r) vid |}).

Definition get_validator (r : ValidatorRegistry) (vid : string) : option Validator :=
  dict_get (registry_validators r) vid.

(** A run of registry calls from the empty registry. *)
Inductive registry_call : Type :=
| CallAddValidator (vid pk : string) (st : Z)
| CallRemoveValidator (vid : string).

Definition run_registry_call (r : ValidatorRegistry) (c : registry_call)
  : ValidatorRegistry :=
  match c with
  | CallAddValidator vid pk st => (add_validator r vid pk st).2
  | CallRemoveValidator vid => (remove_validator r vid).2
  end.

Definition run_registry_calls (cs : list registry_call) : ValidatorRegistry :=
  foldl run_registry_call ValidatorRegistry_init cs.

(** ** core/ledger.py, the accessors *)

Definition get_block_by_hash (l : Ledger) (block_hash : string) : option Block :=
  snd <$> list_find (λ b, hash_block_header (header b) = block_hash) (chain l).

Definition get_full_chain (l : Ledger) : list Block := chain l.

(** ** Calls on a ledger, in any order *)

Inductive ledger_call : Type :=
| CallAddTransaction (tx : Transaction)
| CallProposeNewBlock (now proposer_id : string)
| CallAddBlock (b : Block)
| CallConsensusRound (now proposer_id : string).

Definition run_call (l : Ledger) (c : ledger_call) : result Ledger :=
  match c with
  | CallAddTransaction tx => Ok (add_transaction l tx).2
  | CallProposeNewBlock now p =>
      bind (propose_new_block now l p) (λ '(_, l'), Ok l')
  | CallAddBlock b => bind (add_block l b) (λ '(_, l'), Ok l')
  | CallConsensusRound now p =>
      bind (run_consensus_round now l p) (λ '(_, l'), Ok l')
  end.

Fixpoint run_calls (l : Ledger) (cs : list ledger_call) : result Ledger :=
  match cs with
  | [] => Ok l
  | c :: cs' => bind (run_call l c) (λ l', run_calls l' cs')
  end.

(** What [Ledger.add_transaction] has checked of every pending
    transaction, and how the mempool is keyed. *)
Definition mempool_wf (m : pydict Transaction) : Prop :=
  NoDup m.*1 ∧
  NoDup ((λ t, (sender t, nonce t)) <$> dict_values m) ∧
  Forall (λ kv, kv.1 = hash_transaction kv.2 ∧ 0 < amount kv.2 ∧
                sender kv.2 ≠ EmptyString ∧ recipient kv.2 ≠ EmptyString) m.

(** ** Reading the state *)

(** The balance of [addr], zero for an address with no account yet. *)
Definition balance_of (s : StateManager) (addr : string) : Z :=
  default 0 (balance <$> accounts s !! addr).

(** What [addr] holds of [dpa_id], zero without a record. *)
Definition holding_of (s : StateManager) (addr dpa_id : string) : Z :=
  default 0 (dpa_holding s addr dpa_id).

(** Accounts sit under their own address, and asset records under their
    own id in the account of their owner. *)
Definition state_keyed (s : StateManager) : Prop :=
  ∀ addr a, accounts s !! addr = Some a →
    address a = addr ∧
    ∀ dpa_id d, dpas a !! dpa_id = Some d → asset_id d = dpa_id ∧ owner d = addr.

(** The amounts of the issuances in a run. *)
Definition issued (txs : list Transaction) : Z :=
  foldr Z.add 0
    (amount <$> filter (λ tx, data_startswith "issue:" (data tx) = true) txs).

(** ** lightclient/spv_headers.py

    A header entry is a dict with the keys [hash], [prev_hash],
    [merkle_root] and [timestamp]. *)

Record SPVHeader : Type := {
  spv_hash : string;
  spv_prev_hash : string;
  spv_merkle_root : option string;
  spv_timestamp : string
}.

Record SPVHeaders : Type := {
  headers : list SPVHeader
}.

Definition spv_entry (block : Block) : SPVHeader :=
  {| spv_hash := hash_block_header (header block);
     spv_prev_hash := prev_hash (header block);
     spv_merkle_root := merkle_root (header block);
     spv_timestamp := timestamp (header block) |}.

Definition SPVHeaders_init (full_chain : list Block) : SPVHeaders :=
  {| headers := spv_entry <$> full_chain |}.

Definition add_header (s : SPVHeaders) (block : Block) : SPVHeaders :=
  {| headers := headers s ++ [spv_entry block] |}.

Definition get_latest_header (s : SPVHeaders) : option SPVHeader :=
  last (headers s).

(** [not merkle_root], for [None] and for the empty string. *)
Definition root_missing (o : option string) : bool :=
  match o with
  | None => true
  | Some r => bool_decide (r = EmptyString)
  end.

Definition verify_merkle_proof (s : SPVHeaders) (tx_hash : string)
    (proof : option merkle_proof) (block_hash : string) : result bool :=
  let merkle_root :=
    match list_find (λ h, spv_hash h = block_hash) (headers s) with
    | Some (_, h) => spv_merkle_root h
    | None => Some EmptyString
    end in
  if root_missing merkle_root then Ok false
  else verify_proof tx_hash proof merkle_root.

(** * Properties *)

(** The digest is never unfolded by the proofs below; only the concrete
    examples run it, through [vm_compute]. *)
#[global] Opaque hash_data.

(** ** Reference digests

    The values [hashlib] and [json] give for the same inputs. *)

Example sha256_empty :
  hash_data EmptyString =
    "e3b0c44298fc1c149afbf4c8996fb92427ae41e4649b934ca495991b7852b855".
Proof. vm_compute. reflexivity. Qed.

Example sha256_abc :
  hash_data "abc" =
    "ba7816bf8f01cfea414140de5dae2223b00361a396177a9cb410ff61f20015ad".
Proof. vm_compute. reflexivity. Qed.

Example sha256_two_blocks :
  hash_data ("abcdbcdecdefdefgefghfghighijhijkijkljklmklmnlmnomnopnopq" +:+
             "abcdbcdecdefdefgefghfghighijhijkijkljklmklmnlmnomnopnopq") =
    "59f109d9533b2b70e7c3b814a2bd218f78ea5d3714455bc67987cf0d664399cf".
Proof. vm_compute. reflexivity. Qed.

Example sha256_two_byte_code_point :
  hash_data (String (ascii_of_nat 233) "x") =
    "75ffd91e9de1dcdd5f349e17f877dd3ea559667e1bdbf4c8f3560ca0b81a0b02".
Proof. vm_compute. reflexivity. Qed.

Example hash_transaction_tx_ab :
  hash_transaction Sample.tx_ab =
    "ce43cdb13c157b957d794731f2c7ef98d2fccba68b4d9e5b283d36ed07b1339e".
Proof. vm_compute. reflexivity. Qed.

Example hash_transaction_tx_escaped :
  hash_transaction Sample.tx_escaped =
    "8739564e66acafad33f14d81a57a6030279010d36799ace91b8a6c22b02d1c98".
Proof. vm_compute. reflexivity. Qed.

Example hash_block_header_genesis :
  hash_block_header (header Sample.genesis_block) =
    "cdaf03b0218144179acf7b5c491e11ce497bef5bf4bde21695fcbf9952dace4b".
Proof. vm_compute. reflexivity. Qed.

(** The signature is no part of either hash. *)
Lemma hash_transaction_ignores_signature tx sig :
  hash_transaction
    {| sender := sender tx; recipient := recipient tx; amount := amount tx;
       data := data tx; nonce := nonce tx; signature := sig |} =
  hash_transaction tx.
Proof. reflexivity. Qed.

(** ** Merkle tree *)

Section merkle.

Implicit Types (l level nodes : list string) (i : nat) (x y : string).

Lemma list_pair_ind (P : list string → Prop) :
  P [] → (∀ x, P [x]) → (∀ x y l, P l → P (x :: y :: l)) → ∀ l, P l.
Proof.
  intros Hnil Hone Hstep.
  assert (∀ l, P l ∧ ∀ x, P (x :: l)) as H; [|intros l; apply H].
  induction l as [|a l [IH1 IH2]]; split; auto.
Qed.

Lemma pad_level_of_even l : Nat.odd (length l) = false → pad_level l = l.
Proof. unfold pad_level. by intros ->. Qed.

Lemma pad_level_of_odd l :
  Nat.odd (length l) = true → ∃ x, last l = Some x ∧ pad_level l = l ++ [x].
Proof.
  unfold pad_level. intros Hodd. rewrite Hodd.
  destruct (last l) as [x|] eqn:Hlast; [by exists x|].
  apply last_None in Hlast. by subst.
Qed.

Lemma pad_level_length_even l : Nat.odd (length (pad_level l)) = false.
Proof.
  destruct (Nat.odd (length l)) eqn:Hodd.
  - destruct (pad_level_of_odd l Hodd) as (x & _ & ->).
    rewrite length_app, Nat.add_1_r, Nat.odd_succ.
    by rewrite <-Nat.negb_odd, Hodd.
  - by rewrite pad_level_of_even.
Qed.

Lemma pad_level_idemp l : pad_level (pad_level l) = pad_level l.
Proof. apply pad_level_of_even, pad_level_length_even. Qed.

Lemma pad_level_lookup l i x : l !! i = Some x → pad_level l !! i = Some x.
Proof.
  intros Hi. destruct (Nat.odd (length l)) eqn:Hodd.
  - destruct (pad_level_of_odd l Hodd) as (y & _ & ->).
    by apply lookup_app_l_Some.
  - by rewrite pad_level_of_even.
Qed.

Lemma pad_level_length_le l : (length l ≤ length (pad_level l))%nat.
Proof.
  destruct (Nat.odd (length l)) eqn:Hodd.
  - destruct (pad_level_of_odd l Hodd) as (y & _ & ->).
    rewrite length_app. lia.
  - by rewrite pad_level_of_even.
Qed.

Lemma pad_level_length_bound l :
  (length (pad_level l) ≤ S (length l))%nat.
Proof.
  destruct (Nat.odd (length l)) eqn:Hodd.
  - destruct (pad_level_of_odd l Hodd) as (y & _ & ->).
    rewrite length_app. simpl. lia.
  - rewrite pad_level_of_even by done. lia.
Qed.

Lemma div2_SS i : (S (S i) / 2 = S (i / 2))%nat.
Proof.
  change (S (S i)) with (1 * 2 + i)%nat. by rewrite Nat.div_add_l.
Qed.

Lemma pair_hashes_length l : length (pair_hashes l) = (length l / 2)%nat.
Proof.
  induction l as [| x | x y l IH] using list_pair_ind; [done..|].
  cbn [pair_hashes length]. rewrite IH.
  change (S (S (length l))) with (1 * 2 + length l)%nat.
  by rewrite Nat.div_add_l.
Qed.

(** The level above a padded level of two or more nodes is shorter. *)
Lemma next_level_shorter l :
  (2 ≤ length l)%nat → (S (length (pair_hashes (pad_level l))) ≤ length l)%nat.
Proof.
  intros Hlen. rewrite pair_hashes_length.
  pose proof (pad_level_length_bound l) as Hb.
  pose proof (pad_level_length_even l) as He.
  destruct (Nat.odd (length l)) eqn:Hodd.
  - assert (length (pad_level l) = S (length l)) as ->.
    { destruct (pad_level_of_odd l Hodd) as (y & _ & ->).
      rewrite length_app. simpl. lia. }
    assert (3 ≤ length l)%nat.
    { destruct l as [|? [|? [|? ?]]]; simpl in *; try done; lia. }
    pose proof (Nat.div_mod_eq (S (length l)) 2).
    pose proof (Nat.mod_upper_bound (S (length l)) 2). lia.
  - rewrite pad_level_of_even by done.
    pose proof (Nat.div_mod_eq (length l) 2).
    pose proof (Nat.mod_upper_bound (length l) 2). lia.
Qed.

Lemma next_level_nonempty l :
  (2 ≤ length l)%nat → pair_hashes (pad_level l) ≠ [].
Proof.
  intros Hlen Hnil. apply (f_equal length) in Hnil.
  rewrite pair_hashes_length in Hnil. change (length []) with 0%nat in Hnil.
  pose proof (pad_level_length_le l).
  pose proof (Nat.div_mod_eq (length (pad_level l)) 2).
  pose proof (Nat.mod_upper_bound (length (pad_level l)) 2). lia.
Qed.

(** In a level of even length the node at [i] has its sibling next to
    it, and their parent sits at [i / 2] of the level above. *)
Lemma pair_hashes_lookup l i x :
  Nat.odd (length l) = false →
  l !! i = Some x →
  if Nat.even i
  then ∃ y, l !! (i + 1)%nat = Some y ∧
            pair_hashes l !! (i / 2)%nat = Some (hash_data (x +:+ y))
  else ∃ y, l !! (i - 1)%nat = Some y ∧
            pair_hashes l !! (i / 2)%nat = Some (hash_data (y +:+ x)).
Proof.
  revert i. induction l as [| a | a b l IH] using list_pair_ind; intros i.
  - done.
  - done.
  - intros Hodd Hi. cbn [length] in Hodd.
    rewrite Nat.odd_succ, Nat.even_succ in Hodd.
    destruct i as [|[|i]].
    + simpl in *. simplify_eq. by exists b.
    + simpl in *. simplify_eq. by exists a.
    + specialize (IH i Hodd Hi).
      rewrite Nat.even_succ, Nat.odd_succ, div2_SS. cbn [pair_hashes].
      destruct (Nat.even i) eqn:Hev.
      * destruct IH as (y & Hy & Hp). by exists y.
      * destruct IH as (y & Hy & Hp). exists y. split; [|done].
        destruct i; [done|]. simpl in *. by rewrite Nat.sub_0_r in *.
Qed.

Lemma build_tree_fuel_S fuel l :
  (2 ≤ length l)%nat →
  build_tree_fuel (S fuel) l = build_tree_fuel fuel (pair_hashes (pad_level l)).
Proof. intros Hlen. destruct l as [|? [|? ?]]; simpl in *; done || lia. Qed.

(** [_build_tree] returns on every non-empty list, and more fuel does
    not change what it returns. *)
Lemma build_tree_fuel_total fuel l :
  l ≠ [] → (length l ≤ fuel)%nat → ∃ r, build_tree_fuel fuel l = Ok r.
Proof.
  revert l. induction fuel as [|fuel IH]; intros l Hne Hlen.
  - destruct l; simpl in *; [done|lia].
  - destruct (decide (length l = 1%nat)) as [H1|H1].
    + destruct l as [|x [|? ?]]; simplify_eq/=. by exists x.
    + assert (2 ≤ length l)%nat by (destruct l; simpl in *; [done|lia]).
      rewrite build_tree_fuel_S by done.
      apply IH; [by apply next_level_nonempty|].
      pose proof (next_level_shorter l). lia.
Qed.

Lemma build_tree_fuel_mono fuel fuel' l r :
  build_tree_fuel fuel l = Ok r → (fuel ≤ fuel')%nat →
  build_tree_fuel fuel' l = Ok r.
Proof.
  revert fuel' l. induction fuel as [|fuel IH]; intros fuel' l Hr Hle; [done|].
  destruct fuel' as [|fuel']; [lia|].
  destruct l as [|x [|y l]]; simpl in *; [|done|]; apply IH; (done || lia).
Qed.

Lemma _build_tree_total l : l ≠ [] → ∃ r, _build_tree l = Ok r.
Proof. intros. by apply build_tree_fuel_total. Qed.

Lemma _build_tree_fuel fuel l :
  l ≠ [] → (length l ≤ fuel)%nat → build_tree_fuel fuel l = _build_tree l.
Proof.
  intros Hne Hlen. destruct (_build_tree_total l Hne) as [r Hr].
  rewrite Hr. by eapply build_tree_fuel_mono.
Qed.

(** The recursion of the source. *)
Lemma _build_tree_unfold l :
  l ≠ [] →
  _build_tree l =
    match l with
    | [x] => Ok x
    | _ => _build_tree (pair_hashes (pad_level l))
    end.
Proof.
  intros Hne. destruct l as [|x [|y l]]; [done|reflexivity|].
  set (l' := x :: y :: l).
  assert (2 ≤ length l')%nat as Hlen by (simpl; lia).
  unfold _build_tree at 1.
  replace (length l') with (S (length l' - 1)) by lia.
  rewrite build_tree_fuel_S by done.
  apply _build_tree_fuel; [by apply next_level_nonempty|].
  pose proof (next_level_shorter l' Hlen). lia.
Qed.

Lemma get_proof_fuel_unfold fuel i level :
  get_proof_fuel fuel i level =
    if decide (length level ≤ 1)%nat then Ok []
    else
      match fuel with
      | O => Raise RecursionError
      | S fuel' =>
          let level' := pad_level level in
          let is_left := Nat.even i in
          let sibling_index := if is_left then (i + 1)%nat else (i - 1)%nat in
          match level' !! sibling_index with
          | None => Raise IndexError
          | Some sibling_hash =>
              bind (get_proof_fuel fuel' (i / 2)%nat (pair_hashes level'))
                (λ rest,
                   Ok ((sibling_hash, if is_left then "right" else "left") :: rest))
          end
      end.
Proof. by destruct fuel. Qed.

(** Folding [verify_step] over the proof of the node at [i] rebuilds
    the root of the level, whatever bound at least the length of the
    level the loop is given. *)
Lemma get_proof_fuel_rebuilds_root fuel level i x :
  (length level ≤ fuel)%nat →
  level !! i = Some x →
  ∃ p, get_proof_fuel fuel i level = Ok p ∧
       _build_tree level = Ok (foldl verify_step x p).
Proof.
  revert level i x. induction fuel as [|fuel IH]; intros level i x Hlen Hi.
  { apply lookup_lt_Some in Hi. lia. }
  rewrite get_proof_fuel_unfold.
  destruct (decide (length level ≤ 1)%nat) as [H1|H1].
  - exists []. split; [done|].
    destruct level as [|a [|b level]]; simpl in H1; [done| |lia].
    by destruct i; simplify_eq/=.
  - assert (2 ≤ length level)%nat as H2 by lia.
    assert (level ≠ []) as Hne by (intros ->; simpl in *; lia).
    cbv zeta.
    pose proof (pair_hashes_lookup (pad_level level) i x
                  (pad_level_length_even level)
                  (pad_level_lookup level i x Hi)) as Hsib.
    rewrite (_build_tree_unfold level Hne).
    assert (_build_tree (pair_hashes (pad_level level)) =
            match level with
            | [y] => Ok y
            | _ => _build_tree (pair_hashes (pad_level level))
            end) as <-.
    { destruct level as [|a [|b level]]; simpl in H2; done || lia. }
    pose proof (next_level_shorter level H2) as Hshort.
    destruct (Nat.even i) eqn:Hev; destruct Hsib as (y & Hy & Hparent);
      rewrite Hy;
      (destruct (IH (pair_hashes (pad_level level)) _ _ ltac:(lia) Hparent)
         as (rest & -> & ->));
      eexists; (split; [reflexivity|]); done.
Qed.

Lemma get_proof_fuel_mono fuel fuel' i level p :
  get_proof_fuel fuel i level = Ok p → (fuel ≤ fuel')%nat →
  get_proof_fuel fuel' i level = Ok p.
Proof.
  revert fuel' i level p.
  induction fuel as [|fuel IH]; intros fuel' i level p Hp Hle;
    rewrite get_proof_fuel_unfold in *;
    destruct (decide (length level ≤ 1)%nat); try done.
  destruct fuel' as [|fuel']; [lia|]. cbv zeta in *.
  destruct (pad_level level !! _); [|done].
  destruct (get_proof_fuel fuel _ _) as [rest|] eqn:Hrest; [|done].
  by rewrite (IH fuel' _ _ _ Hrest) by lia.
Qed.

(** The loop of [get_proof] as the source iterates it. *)
Lemma get_proof_loop_unfold i level x :
  level !! i = Some x →
  get_proof_loop i level =
    if decide (length level ≤ 1)%nat then Ok []
    else
      let level' := pad_level level in
      let is_left := Nat.even i in
      let sibling_index := if is_left then (i + 1)%nat else (i - 1)%nat in
      match level' !! sibling_index with
      | None => Raise IndexError
      | Some sibling_hash =>
          bind (get_proof_loop (i / 2)%nat (pair_hashes level'))
            (λ rest,
               Ok ((sibling_hash, if is_left then "right" else "left") :: rest))
      end.
Proof.
  intros Hi. unfold get_proof_loop at 1. rewrite get_proof_fuel_unfold.
  destruct (decide (length level ≤ 1)%nat) as [H1|H1]; [done|].
  assert (2 ≤ length level)%nat as H2 by lia.
  replace (length level) with (S (length level - 1)) at 1 by lia.
  cbv zeta.
  pose proof (pair_hashes_lookup (pad_level level) i x
                (pad_level_length_even level)
                (pad_level_lookup level i x Hi)) as Hsib.
  pose proof (next_level_shorter level H2) as Hshort.
  assert (∃ z, pair_hashes (pad_level level) !! (i / 2)%nat = Some z)
    as [z Hz].
  { destruct (Nat.even i); destruct Hsib as (y & _ & Hp); eauto. }
  destruct (pad_level level !! (if Nat.even i then (i + 1)%nat else (i - 1)%nat));
    [|done].
  f_equal. unfold get_proof_loop.
  destruct (get_proof_fuel_rebuilds_root
              (length (pair_hashes (pad_level level)))
              (pair_hashes (pad_level level)) _ _ ltac:(lia) Hz)
    as (p & Hp & _).
  rewrite Hp. apply (get_proof_fuel_mono _ (length level - 1)) in Hp; [|lia].
  by rewrite Hp.
Qed.

Lemma _build_tree_nodes_root l :
  l ≠ [] → _build_tree (_build_tree_nodes l) = _build_tree l.
Proof.
  intros Hne. destruct l as [|a [|b l]]; [done..|].
  set (l' := a :: b :: l). change (_build_tree_nodes l') with (pad_level l').
  assert (pad_level l' ≠ []) as Hne'.
  { intros Hnil. pose proof (pad_level_length_le l') as Hle.
    rewrite Hnil in Hle. simpl in Hle. lia. }
  rewrite (_build_tree_unfold (pad_level l') Hne'), pad_level_idemp.
  rewrite (_build_tree_unfold l' Hne). subst l'.
  pose proof (pad_level_length_even (a :: b :: l)) as Hev.
  by destruct (pad_level (a :: b :: l)) as [|? [|? ?]].
Qed.

Lemma _build_tree_nodes_elem_of l x : x ∈ l → x ∈ _build_tree_nodes l.
Proof.
  intros [i Hi]%list_elem_of_lookup. apply list_elem_of_lookup. exists i.
  destruct l as [|a [|b l]]; [done..|]. by apply pad_level_lookup.
Qed.

(** The round trip at the level of the leaves the tree stores, which are
    the digests of the items it was built from. *)
Lemma merkle_round_trip_leaf (data_items : list string) (d : string) :
  d ∈ data_items → merkle_round_trip data_items (hash_data d) = Ok true.
Proof.
  intros Hd. unfold merkle_round_trip, MerkleTree_init.
  destruct data_items as [|d0 ds] eqn:Hdata; [by apply elem_of_nil in Hd|].
  rewrite <-Hdata in *. clear Hdata.
  set (hashed := hash_data <$> data_items).
  assert (hash_data d ∈ hashed) as Hin by (by apply list_elem_of_fmap_2).
  assert (hashed ≠ []) as Hne by (intros Hnil; rewrite Hnil in Hin; by apply elem_of_nil in Hin).
  destruct (_build_tree_total hashed Hne) as [r Hr]. rewrite Hr. cbn [bind].
  unfold get_proof. cbn [leaves root].
  destruct (list_find_elem_of (λ x, x = hash_data d) _ (hash_data d)
              (_build_tree_nodes_elem_of _ _ Hin) eq_refl) as [[i y] Hfind].
  rewrite Hfind.
  apply list_find_Some in Hfind as (Hi & -> & _).
  destruct (get_proof_fuel_rebuilds_root
              (length (_build_tree_nodes hashed)) _ _ _ (Nat.le_refl _) Hi)
    as (p & Hp & Hroot).
  unfold get_proof_loop. rewrite Hp. cbn [bind].
  unfold verify_proof, get_merkle_root. cbn [root].
  rewrite _build_tree_nodes_root, Hr in Hroot by done. simplify_eq.
  by rewrite bool_decide_eq_true_2.
Qed.

End merkle.

(** ** Blocks and the ledger *)

Section ledger.

Implicit Types (l : Ledger) (b : Block) (tx : Transaction).

Lemma MerkleTree_init_total (items : list string) :
  ∃ t, MerkleTree_init items = Ok t.
Proof.
  destruct items as [|d ds]; [by eexists|].
  unfold MerkleTree_init.
  destruct (_build_tree_total (hash_data <$> d :: ds)) as [r ->]; [done|].
  by eexists.
Qed.

Lemma create_block_total now prev txs p :
  ∃ t, MerkleTree_init (hash_transaction <$> txs) = Ok t ∧
       create_block now prev txs p =
         Ok {| header := {| prev_hash := prev;
                            merkle_root := get_merkle_root t;
                            timestamp := now;
                            validator := p;
                            header_nonce := 0;
                            header_signature := None |};
               transactions := txs |}.
Proof.
  unfold create_block.
  destruct (MerkleTree_init_total (hash_transaction <$> txs)) as [t Ht].
  exists t. by rewrite Ht.
Qed.

Lemma is_block_valid_true b prev :
  is_block_valid b prev = Ok true →
  prev_hash (header b) = hash_block_header (header prev).
Proof.
  unfold is_block_valid.
  destruct (decide (prev_hash (header b) ≠ hash_block_header (header prev)))
    as [Hne|Heq]; [done|].
  intros _. by destruct (decide (prev_hash (header b) =
                                 hash_block_header (header prev))).
Qed.

Lemma is_block_valid_total b prev : ∃ r, is_block_valid b prev = Ok r.
Proof.
  unfold is_block_valid.
  destruct (decide _); [by eexists|].
  destruct (MerkleTree_init_total (hash_transaction <$> transactions b))
    as [t ->].
  cbn [bind]. destruct (decide _); by eexists.
Qed.

Lemma create_block_valid now tip txs p b :
  create_block now (hash_block_header (header tip)) txs p = Ok b →
  is_block_valid b tip = Ok true.
Proof.
  destruct (create_block_total now (hash_block_header (header tip)) txs p)
    as (t & Ht & ->).
  intros [= <-]. unfold is_block_valid. cbn [header prev_hash transactions merkle_root].
  rewrite decide_False by (by intros ?).
  rewrite Ht. cbn [bind]. by rewrite decide_False by (by intros ?).
Qed.

Lemma add_block_inv l b r l' :
  add_block l b = Ok (r, l') →
  ∃ tip, get_latest_block l = Ok tip ∧ is_block_valid b tip = Ok r ∧
    l' = if r
         then {| chain := chain l ++ [b];
                 mempool := mempool l;
                 state_manager := commit_block (state_manager l) b;
                 validator_registry := validator_registry l;
                 proposer_rotation := proposer_rotation l |}
         else l.
Proof.
  unfold add_block. destruct (get_latest_block l) as [tip|]; [|done].
  cbn [bind]. destruct (is_block_valid b tip) as [[]|] eqn:Hv; cbn; [| |done];
    intros [= <- <-]; by exists tip.
Qed.

Lemma propose_new_block_inv now l p o l' :
  propose_new_block now l p = Ok (o, l') →
  ∃ tip, get_latest_block l = Ok tip ∧
    match o with
    | None =>
        l' = l ∧
        (Some p ≠ get_current_proposer (proposer_rotation l)
                    (header_nonce (header tip) + 1) ∨
         mempool l = [])
    | Some b =>
        l' = set_mempool l [] ∧ mempool l ≠ [] ∧
        Some p = get_current_proposer (proposer_rotation l)
                   (header_nonce (header tip) + 1) ∧
        create_block now (hash_block_header (header tip))
          (dict_values (mempool l)) p = Ok b
    end.
Proof.
  unfold propose_new_block. destruct (get_latest_block l) as [tip|]; [|done].
  cbn [bind]. destruct (decide _) as [Hturn|Hturn].
  { intros [= <- <-]. exists tip. auto. }
  apply dec_stable in Hturn.
  destruct (mempool l) as [|kv m] eqn:Hm.
  { intros [= <- <-]. exists tip. auto. }
  cbn [dict_values fmap list_fmap].
  destruct (create_block _ _ _ _) as [b|] eqn:Hb; [|done].
  cbn [bind]. intros [= <- <-]. by exists tip.
Qed.

End ledger.

Section ledger_claims.

Implicit Types (l : Ledger) (b : Block) (tx : Transaction).

(** C10. A block assembled on the hash of the tip's header validates
    against that tip, for every transaction list (the empty one gives the
    root [None]) and every proposer; so [add_block] accepts what
    [propose_new_block] has just returned, and appends it. *)
Theorem fresh_block_validates now tip txs p :
  (∃ b, create_block now (hash_block_header (header tip)) txs p = Ok b ∧
        is_block_valid b tip = Ok true ∧
        (txs = [] → merkle_root (header b) = None)) ∧
  (∀ l b l', propose_new_block now l p = Ok (Some b, l') →
     chain l' = chain l ∧
     ∃ l'', add_block l' b = Ok (true, l'') ∧ chain l'' = chain l ++ [b]).
Proof.
  split.
  - destruct (create_block_total now (hash_block_header (header tip)) txs p)
      as (t & Ht & Hb).
    eexists. split; [exact Hb|]. split.
    + by eapply create_block_valid.
    + intros ->. by injection Ht as <-.
  - intros l b l' Hprop.
    apply propose_new_block_inv in Hprop as (tip' & Htip & -> & _ & _ & Hb).
    split; [done|].
    apply create_block_valid in Hb.
    unfold add_block, get_latest_block in *. cbn [set_mempool chain].
    destruct (last (chain l)); simplify_eq. cbn [bind].
    rewrite Hb. cbn. by eexists.
Qed.

Lemma fresh_block_validates_witness :
  propose_new_block Sample.clock Sample.ledger1 "v1" =
    Ok (Some Sample.block1, set_mempool Sample.ledger1 []) ∧
  chain (set_mempool Sample.ledger1 []) = chain Sample.ledger1 ∧
  ∃ l'', add_block (set_mempool Sample.ledger1 []) Sample.block1 = Ok (true, l'') ∧
         chain l'' = chain Sample.ledger1 ++ [Sample.block1].
Proof.
  assert (propose_new_block Sample.clock Sample.ledger1 "v1" =
            Ok (Some Sample.block1, set_mempool Sample.ledger1 [])) as Hp
    by (vm_compute; reflexivity).
  split; [exact Hp|].
  exact (proj2 (fresh_block_validates Sample.clock Sample.genesis_block [] "v1")
           _ _ _ Hp).
Defined.

Lemma chain_linked_snoc c tip b :
  chain_linked c → last c = Some tip →
  prev_hash (header b) = hash_block_header (header tip) →
  chain_linked (c ++ [b]).
Proof.
  intros Hc Htip Hb i prev cur Hi HSi.
  apply last_Some in Htip as [c' ->].
  destruct (decide (S i < length (c' ++ [tip]))%nat) as [Hlt|Hge].
  - rewrite lookup_app_l in Hi by lia. rewrite lookup_app_l in HSi by lia.
    by eapply Hc.
  - pose proof (lookup_lt_Some _ _ _ HSi) as Hlen.
    repeat rewrite length_app in Hlen. rewrite length_app in Hge.
    cbn [length] in Hlen, Hge.
    assert (i = length c') as -> by lia.
    rewrite <-(assoc_L app) in Hi. change ([tip] ++ [b]) with (tip :: [b]) in Hi.
    rewrite list_lookup_middle in Hi by done.
    rewrite list_lookup_middle in HSi by (rewrite length_app; cbn [length]; lia).
    by simplify_eq.
Qed.

Lemma add_block_keeps_linked l b r l' :
  chain l ≠ [] → chain_linked (chain l) →
  add_block l b = Ok (r, l') →
  chain l' ≠ [] ∧ chain_linked (chain l').
Proof.
  intros Hne Hlinked (tip & Htip & Hvalid & ->)%add_block_inv.
  destruct r; [|done]. cbn [chain]. split.
  - intros Hnil. by apply app_eq_nil in Hnil as [_ ?].
  - unfold get_latest_block in Htip.
    destruct (last (chain l)) as [tip'|] eqn:Hlast; simplify_eq.
    eapply chain_linked_snoc; [done..|]. by apply is_block_valid_true.
Qed.

Lemma add_block_total l b :
  chain l ≠ [] → ∃ r l', add_block l b = Ok (r, l').
Proof.
  intros Hne. unfold add_block, get_latest_block.
  destruct (last (chain l)) as [tip|] eqn:Hlast;
    [|by apply last_None in Hlast].
  cbn [bind]. destruct (is_block_valid_total b tip) as [[] ->]; cbn; eauto.
Qed.

Lemma add_blocks_keep_linked bs l :
  chain l ≠ [] → chain_linked (chain l) →
  ∃ l', add_blocks l bs = Ok l' ∧ chain l' ≠ [] ∧ chain_linked (chain l').
Proof.
  revert l. induction bs as [|b bs IH]; intros l Hne Hlinked; [by exists l|].
  destruct (add_block_total l b Hne) as (r & l1 & Hadd).
  cbn [add_blocks]. rewrite Hadd. cbn [bind].
  destruct (add_block_keeps_linked _ _ _ _ Hne Hlinked Hadd) as [Hne1 Hl1].
  by apply IH.
Qed.

(** C5. Whatever blocks are offered to [add_block], in whatever order,
    starting from a ledger built on a genesis block, every call returns
    and in the resulting chain each block after the first carries the
    hash of the header of the block before it. *)
Theorem hash_chain_integrity genesis registry bs :
  ∃ l, add_blocks (Ledger_init genesis registry) bs = Ok l ∧
    ∀ i prev cur,
      chain l !! i = Some prev → chain l !! S i = Some cur →
      prev_hash (header cur) = hash_block_header (header prev).
Proof.
  destruct (add_blocks_keep_linked bs (Ledger_init genesis registry))
    as (l & Hl & _ & Hlinked); [done| |by exists l].
  intros i prev cur _ HSi. by destruct i.
Qed.

Lemma hash_chain_integrity_witness :
  ∃ l, add_blocks Sample.ledger0 [Sample.stray_block; Sample.block1] = Ok l ∧
       chain l = [Sample.genesis_block; Sample.block1] ∧
       prev_hash (header Sample.block1) =
         hash_block_header (header Sample.genesis_block).
Proof.
  destruct (hash_chain_integrity Sample.genesis_block Sample.registry
              [Sample.stray_block; Sample.block1]) as (l & Hl & Hlinked).
  exists l. split; [exact Hl|].
  assert (chain l = [Sample.genesis_block; Sample.block1]) as Hchain.
  { change (Ledger_init Sample.genesis_block Sample.registry)
      with Sample.ledger0 in Hl.
    assert (∃ l0, add_blocks Sample.ledger0 [Sample.stray_block; Sample.block1]
                  = Ok l0 ∧ chain l0 = [Sample.genesis_block; Sample.block1])
      as (l0 & Hl0 & Hc0) by (eexists; split; vm_compute; reflexivity).
    rewrite Hl0 in Hl. by injection Hl as <-. }
  split; [exact Hchain|].
  apply (Hlinked 0%nat); by rewrite Hchain.
Defined.

Lemma dict_contains_true {V} (k : string) (d : pydict V) :
  dict_contains k d = true ↔ k ∈ d.*1.
Proof. unfold dict_contains. by rewrite bool_decide_eq_true. Qed.

Lemma dict_contains_false {V} (k : string) (d : pydict V) :
  dict_contains k d = false ↔ k ∉ d.*1.
Proof. unfold dict_contains. by rewrite bool_decide_eq_false. Qed.

Lemma dict_set_fresh {V} (d : pydict V) k v :
  k ∉ d.*1 → dict_set d k v = d ++ [(k, v)].
Proof.
  induction d as [|[k' v'] d IH]; intros Hk; [done|].
  cbn [fmap list_fmap fst] in Hk. apply not_elem_of_cons in Hk as [Hne Hk].
  cbn [dict_set]. rewrite decide_False by done. by rewrite IH.
Qed.

Lemma entries_under_fresh {V} (d : pydict V) k :
  k ∉ d.*1 → entries_under k d = 0%nat.
Proof.
  unfold entries_under. induction d as [|[k' v'] d IH]; intros Hk; [done|].
  cbn [fmap list_fmap fst] in Hk. apply not_elem_of_cons in Hk as [Hne Hk].
  rewrite filter_cons_False by (simpl; congruence). by apply IH.
Qed.

Lemma entries_under_snoc {V} (d : pydict V) k v :
  entries_under k (d ++ [(k, v)]) = S (entries_under k d).
Proof.
  unfold entries_under. rewrite filter_app, length_app.
  rewrite filter_cons_True by done. simpl. lia.
Qed.

Lemma validate_transaction_false (m : pydict Transaction) tx :
  validate_transaction m tx = false ↔
    (∃ t, t ∈ dict_values m ∧ sender t = sender tx ∧ nonce t = nonce tx) ∨
    amount tx ≤ 0 ∨ sender tx = EmptyString ∨ recipient tx = EmptyString.
Proof.
  unfold validate_transaction.
  destruct (bool_decide (nonce tx ∈ _)) eqn:Hnonce.
  { apply bool_decide_eq_true in Hnonce.
    apply list_elem_of_fmap in Hnonce as (t & Hn & [Hs Ht]%list_elem_of_filter).
    split; [|done]. intros _. left. by exists t. }
  apply bool_decide_eq_false in Hnonce.
  assert (¬ ∃ t, t ∈ dict_values m ∧ sender t = sender tx ∧ nonce t = nonce tx)
    as Hno.
  { intros (t & Ht & Hs & Hn). apply Hnonce. rewrite <-Hn.
    apply list_elem_of_fmap_2, list_elem_of_filter. by split. }
  destruct (amount tx <=? 0) eqn:Hamt.
  { apply Z.leb_le in Hamt. split; auto. }
  apply Z.leb_gt in Hamt.
  destruct (bool_decide (sender tx = EmptyString)) eqn:Hs.
  { apply bool_decide_eq_true in Hs. split; auto. }
  destruct (bool_decide (recipient tx = EmptyString)) eqn:Hr.
  { apply bool_decide_eq_true in Hr. split; auto. }
  apply bool_decide_eq_false in Hs, Hr. cbn.
  split; [done|]. intros [?|[?|[?|?]]]; (done || lia).
Qed.

Lemma add_transaction_rejected l tx :
  hash_transaction tx ∈ (mempool l).*1 ∨
    validate_transaction (mempool l) tx = false →
  add_transaction l tx = (false, l).
Proof.
  unfold add_transaction. intros [Hdup|Hv].
  - by apply dict_contains_true in Hdup as ->.
  - rewrite Hv. by destruct (dict_contains _ _).
Qed.

Lemma add_transaction_admitted l tx :
  hash_transaction tx ∉ (mempool l).*1 →
  validate_transaction (mempool l) tx = true →
  add_transaction l tx =
    (true, set_mempool l (mempool l ++ [(hash_transaction tx, tx)])).
Proof.
  unfold add_transaction. intros Hfresh Hv.
  rewrite dict_set_fresh by done.
  apply dict_contains_false in Hfresh as ->. by rewrite Hv.
Qed.

Lemma add_transaction_cases l tx :
  add_transaction l tx = (false, l) ∨
  add_transaction l tx =
    (true, set_mempool l (mempool l ++ [(hash_transaction tx, tx)])).
Proof.
  destruct (decide (hash_transaction tx ∈ (mempool l).*1)) as [Hdup|Hfresh].
  { left. apply add_transaction_rejected. by left. }
  destruct (validate_transaction (mempool l) tx) eqn:Hv.
  - right. by apply add_transaction_admitted.
  - left. apply add_transaction_rejected. by right.
Qed.

(** C7. A submission is rejected exactly when its hash is already a key
    of the mempool, or a pending transaction has its sender and nonce, or
    its amount is not positive, or its sender or recipient is empty; a
    rejection leaves the ledger as it was; an admission appends the
    transaction under its hash, which then keys exactly one entry; the
    same transaction submitted again is rejected; and nothing but the
    mempool is consulted. *)
Theorem admission_rules l tx :
  let h := hash_transaction tx in
  let r := add_transaction l tx in
  (r.1 = false ↔
     h ∈ (mempool l).*1 ∨
     (∃ t, t ∈ dict_values (mempool l) ∧ sender t = sender tx ∧ nonce t = nonce tx) ∨
     amount tx ≤ 0 ∨ sender tx = EmptyString ∨ recipient tx = EmptyString) ∧
  (r.1 = false → r.2 = l) ∧
  (r.1 = true →
     r.2 = set_mempool l (mempool l ++ [(h, tx)]) ∧
     entries_under h (mempool r.2) = 1%nat) ∧
  add_transaction r.2 tx = (false, r.2) ∧
  (∀ l2, mempool l2 = mempool l →
     (add_transaction l2 tx).1 = r.1 ∧
     mempool (add_transaction l2 tx).2 = mempool r.2).
Proof.
  intros h r. subst r h.
  destruct (decide (hash_transaction tx ∈ (mempool l).*1)) as [Hdup|Hfresh].
  { rewrite (add_transaction_rejected l tx) by auto. cbn [fst snd].
    rewrite (add_transaction_rejected l tx) by auto.
    split; [|split; [|split; [|split]]]; try done.
    - split; auto.
    - intros l2 Hl2. rewrite add_transaction_rejected by (rewrite Hl2; auto).
      done. }
  destruct (validate_transaction (mempool l) tx) eqn:Hv.
  - rewrite (add_transaction_admitted l tx) by done. cbn [fst snd].
    assert (¬ ((∃ t, t ∈ dict_values (mempool l) ∧ sender t = sender tx ∧
                     nonce t = nonce tx) ∨
               amount tx ≤ 0 ∨ sender tx = EmptyString ∨
               recipient tx = EmptyString)) as Hok.
    { intros Hbad%validate_transaction_false. congruence. }
    split; [|split; [|split; [|split]]]; try done.
    + split; [done|]. intros [?|?]; [done|]. by destruct Hok.
    + intros _. split; [done|]. cbn [set_mempool mempool].
      by rewrite entries_under_snoc, entries_under_fresh.
    + apply add_transaction_rejected. left. cbn [set_mempool mempool].
      rewrite fmap_app. set_solver.
    + intros l2 Hl2. rewrite add_transaction_admitted by (by rewrite Hl2).
      cbn [fst snd set_mempool mempool]. by rewrite Hl2.
  - rewrite (add_transaction_rejected l tx) by auto. cbn [fst snd].
    rewrite (add_transaction_rejected l tx) by auto.
    split; [|split; [|split; [|split]]]; try done.
    + split; [|done]. intros _. right. by apply validate_transaction_false.
    + intros l2 Hl2. rewrite add_transaction_rejected by (rewrite Hl2; auto).
      cbn [fst snd]. by rewrite Hl2.
Qed.

Lemma admission_rules_witness :
  add_transaction Sample.ledger0 Sample.tx_ab =
    (true, set_mempool Sample.ledger0
             [(hash_transaction Sample.tx_ab, Sample.tx_ab)]) ∧
  entries_under (hash_transaction Sample.tx_ab) (mempool Sample.ledger1) = 1%nat ∧
  add_transaction Sample.ledger1 Sample.tx_ab = (false, Sample.ledger1).
Proof.
  pose proof (admission_rules Sample.ledger0 Sample.tx_ab)
    as (_ & _ & Hadmit & Hagain & _).
  assert ((add_transaction Sample.ledger0 Sample.tx_ab).1 = true) as Hfst
    by (vm_compute; reflexivity).
  destruct (Hadmit Hfst) as [Hsnd Hone].
  split; [|split; [exact Hone|exact Hagain]].
  rewrite (surjective_pairing (add_transaction Sample.ledger0 Sample.tx_ab)).
  by rewrite Hfst, Hsnd.
Defined.

(** C6. A rejected [add_transaction], a [propose_new_block] that returns
    no block and a rejected [add_block] each leave the whole ledger
    (chain, mempool, accounts and assets) as it was; and the mempool is
    emptied by no call but a [propose_new_block] that returns a block:
    an admission leaves it non-empty and [add_block] does not touch
    it. *)
Theorem failed_calls_leave_ledger now l tx p b :
  ((add_transaction l tx).1 = false → (add_transaction l tx).2 = l) ∧
  (∀ l', propose_new_block now l p = Ok (None, l') → l' = l) ∧
  (∀ l', add_block l b = Ok (false, l') → l' = l) ∧
  ((add_transaction l tx).1 = true → mempool (add_transaction l tx).2 ≠ []) ∧
  (∀ r l', add_block l b = Ok (r, l') → mempool l' = mempool l) ∧
  (∀ blk l', propose_new_block now l p = Ok (Some blk, l') →
     l' = set_mempool l [] ∧ mempool l ≠ []).
Proof.
  split; [|split; [|split; [|split; [|split]]]].
  - by destruct (add_transaction_cases l tx) as [-> | ->].
  - by intros l' (tip & _ & -> & _)%propose_new_block_inv.
  - by intros l' (tip & _ & _ & ->)%add_block_inv.
  - destruct (add_transaction_cases l tx) as [-> | ->]; [done|].
    intros _. cbn [snd set_mempool mempool].
    intros Hnil. by apply app_eq_nil in Hnil as [_ ?].
  - intros r l' (tip & _ & _ & ->)%add_block_inv. by destruct r.
  - by intros blk l' (tip & _ & -> & ? & _)%propose_new_block_inv.
Qed.

Lemma failed_calls_leave_ledger_witness :
  (add_transaction Sample.ledger1 Sample.tx_ab).1 = false ∧
  (add_transaction Sample.ledger1 Sample.tx_ab).2 = Sample.ledger1 ∧
  propose_new_block Sample.clock Sample.ledger1 "v2" = Ok (None, Sample.ledger1) ∧
  add_block Sample.ledger1 Sample.stray_block = Ok (false, Sample.ledger1) ∧
  propose_new_block Sample.clock Sample.ledger1 "v1" =
    Ok (Some Sample.block1, set_mempool Sample.ledger1 []) ∧
  mempool Sample.ledger1 ≠ [].
Proof.
  pose proof (failed_calls_leave_ledger Sample.clock Sample.ledger1
                Sample.tx_ab "v2" Sample.stray_block)
    as (Htx & Hprop & Hadd & _).
  pose proof (failed_calls_leave_ledger Sample.clock Sample.ledger1
                Sample.tx_ab "v1" Sample.stray_block)
    as (_ & _ & _ & _ & _ & Hclear).
  assert ((add_transaction Sample.ledger1 Sample.tx_ab).1 = false) as H1
    by (vm_compute; reflexivity).
  assert (propose_new_block Sample.clock Sample.ledger1 "v2" =
            Ok (None, Sample.ledger1)) as H2 by (vm_compute; reflexivity).
  assert (add_block Sample.ledger1 Sample.stray_block =
            Ok (false, Sample.ledger1)) as H3 by (vm_compute; reflexivity).
  assert (propose_new_block Sample.clock Sample.ledger1 "v1" =
            Ok (Some Sample.block1, set_mempool Sample.ledger1 [])) as H4
    by (vm_compute; reflexivity).
  pose proof (Hprop _ H2) as _. pose proof (Hadd _ H3) as _.
  split; [exact H1|]. split; [exact (Htx H1)|].
  split; [exact H2|]. split; [exact H3|]. split; [exact H4|].
  exact (proj2 (Hclear _ _ H4)).
Defined.

(** What the turn check of [propose_new_block] compares with: the
    rotation at the tip header's [nonce] plus one. *)
Lemma propose_new_block_turn now l p b l' :
  propose_new_block now l p = Ok (Some b, l') →
  ∃ tip, last (chain l) = Some tip ∧
    get_current_proposer (proposer_rotation l)
      (header_nonce (header tip) + 1) = Some p ∧
    header_nonce (header b) = 0.
Proof.
  intros (tip & Htip & _ & _ & Hturn & Hb)%propose_new_block_inv.
  exists tip. unfold get_latest_block in Htip.
  destruct (last (chain l)); simplify_eq. split; [done|]. split; [done|].
  destruct (create_block_total now (hash_block_header (header tip))
              (dict_values (mempool l)) p) as (t & _ & Hb').
  rewrite Hb' in Hb. by injection Hb as <-.
Qed.

(** Once a block assembled by [propose_new_block] is the tip, the turn
    check asks the rotation for height 1 at every later proposal: the
    proposer never changes, however long the chain grows. *)
Lemma proposer_after_committed_block now l p b l1 l2 now' p' b' l3 :
  propose_new_block now l p = Ok (Some b, l1) →
  add_block l1 b = Ok (true, l2) →
  propose_new_block now' l2 p' = Ok (Some b', l3) →
  get_current_proposer (proposer_rotation l) 1 = Some p'.
Proof.
  intros Hprop Hadd Hprop'.
  destruct (propose_new_block_turn _ _ _ _ _ Hprop) as (tip & _ & _ & Hnonce).
  apply propose_new_block_inv in Hprop as (tip0 & _ & -> & _).
  apply add_block_inv in Hadd as (tip1 & _ & _ & ->).
  destruct (propose_new_block_turn _ _ _ _ _ Hprop') as (tip' & Htip' & Hturn & _).
  cbn [chain proposer_rotation set_mempool] in Htip', Hturn.
  rewrite last_snoc in Htip'. injection Htip' as <-.
  by rewrite Hnonce in Hturn.
Qed.

(** C2, on a ledger with the validators [v1], [v2], [v3], a chain of two
    blocks (the genesis block and one block committed by a consensus
    round of [v1]) and one pending transaction. The next height is 3,
    whose proposer is [v3]; counting the chain length itself as the
    height gives 2 and [v2]. The code reads the tip header's [nonce],
    which is 0, asks for height 1, and lets [v1] propose again, turning
    both [v2] and [v3] away. *)
Theorem propose_new_block_ignores_height :
  length (chain Sample.ledger3) = 2%nat ∧
  validator <$> (header <$> chain Sample.ledger3) = ["genesis"; "v1"] ∧
  get_current_proposer (proposer_rotation Sample.ledger3)
    (Z.of_nat (length (chain Sample.ledger3)) + 1) = Some "v3" ∧
  get_current_proposer (proposer_rotation Sample.ledger3)
    (Z.of_nat (length (chain Sample.ledger3))) = Some "v2" ∧
  propose_new_block Sample.later Sample.ledger3 "v3" = Ok (None, Sample.ledger3) ∧
  propose_new_block Sample.later Sample.ledger3 "v2" = Ok (None, Sample.ledger3) ∧
  propose_new_block Sample.later Sample.ledger3 "v1" =
    Ok (Some Sample.block2, set_mempool Sample.ledger3 []).
Proof.
  split; [|split; [|split; [|split; [|split; [|split]]]]];
    vm_compute; reflexivity.
Qed.

End ledger_claims.

(** ** The state machine *)

Section state.

Implicit Types (s : StateManager) (tx : Transaction) (a : Account)
  (m : gmap string Account).

Lemma sum_insert_fresh m k a :
  m !! k = None →
  map_fold count_balance 0 (<[k := a]> m) = balance a + map_fold count_balance 0 m.
Proof.
  intros Hk. rewrite map_fold_insert_L; [done| |done].
  intros. unfold count_balance. lia.
Qed.

Lemma sum_alter m k f a :
  m !! k = Some a →
  map_fold count_balance 0 (alter f k m) =
    map_fold count_balance 0 m - balance a + balance (f a).
Proof.
  intros Hk. rewrite <-(insert_delete_id m k a) by done.
  rewrite alter_insert_eq.
  rewrite !sum_insert_fresh by apply lookup_delete_eq.
  generalize (map_fold count_balance 0 (delete k m)). intros z. lia.
Qed.

Lemma alter_absent m k f : m !! k = None → alter f k m = m.
Proof.
  intros Hk. apply map_eq. intros j. rewrite lookup_alter.
  case_decide; [|done]. subst. by rewrite Hk.
Qed.

Lemma sum_balances_get_account s addr :
  sum_balances (get_account s addr) = sum_balances s.
Proof.
  unfold get_account, sum_balances.
  destruct (accounts s !! addr) eqn:Hk; [done|]. cbn [set_accounts accounts].
  by rewrite (sum_insert_fresh _ _ _ Hk).
Qed.

Lemma sum_balances_update s addr f :
  sum_balances (update_account s addr f) =
    sum_balances s +
    match accounts s !! addr with
    | Some a => balance (f a) - balance a
    | None => 0
    end.
Proof.
  unfold update_account, sum_balances. cbn [set_accounts accounts].
  destruct (accounts s !! addr) as [a|] eqn:Hk.
  - rewrite (sum_alter _ _ _ _ Hk). lia.
  - rewrite alter_absent by done. lia.
Qed.

Lemma sum_balances_update_dpas s addr (g : Account → gmap string DigitalPublicAsset) :
  sum_balances (update_account s addr (λ a, set_dpas (g a) a)) = sum_balances s.
Proof.
  rewrite sum_balances_update. destruct (accounts s !! addr); cbn; lia.
Qed.

Lemma get_account_lookup s addr :
  accounts (get_account s addr) !! addr = Some (account_at (get_account s addr) addr).
Proof.
  unfold account_at, get_account.
  destruct (accounts s !! addr) as [a|] eqn:Hk.
  - by rewrite Hk.
  - cbn [set_accounts accounts]. by rewrite lookup_insert_eq.
Qed.

Lemma get_account_keeps s addr k a :
  accounts s !! k = Some a → accounts (get_account s addr) !! k = Some a.
Proof.
  intros Hk. unfold get_account.
  destruct (accounts s !! addr) eqn:Haddr; [done|]. cbn [set_accounts accounts].
  rewrite lookup_insert_ne; [done|]. intros ->. congruence.
Qed.

Lemma account_at_lookup s addr a :
  accounts s !! addr = Some a → account_at s addr = a.
Proof. unfold account_at. by intros ->. Qed.

(** No transaction of any kind changes the sum of the balances: a
    currency transfer moves [amount] between two accounts (or back into
    the same one), and the two asset branches do not write [balance]. *)
Lemma sum_balances_process_transaction s tx :
  sum_balances (process_transaction s tx) = sum_balances s.
Proof.
  unfold process_transaction.
  destruct (data_startswith "issue:" (data tx)).
  { unfold sum_balances at 1. cbn [accounts].
    fold (sum_balances (update_account (get_account s (recipient tx)) (recipient tx)
            (λ a, set_dpas (<[data_dpa_id (data tx) :=
               {| asset_id := data_dpa_id (data tx); owner := recipient tx;
                  dpa_amount := amount tx;
                  dpa_data := Some {[ "source_tx" := sender tx ]} |}]> (dpas a)) a))).
    by rewrite sum_balances_update_dpas, sum_balances_get_account. }
  set (s2 := get_account (get_account s (sender tx)) (recipient tx)).
  assert (sum_balances s2 = sum_balances s) as Hs2.
  { unfold s2. by rewrite !sum_balances_get_account. }
  destruct (data_startswith "transfer:" (data tx)).
  { destruct (dpas (account_at s2 (sender tx)) !! _); [|done].
    destruct (amount tx <=? _); [|done].
    destruct (dpas (account_at _ (recipient tx)) !! _);
      by rewrite !sum_balances_update_dpas. }
  destruct (amount tx <=? _); [|done].
  assert (accounts s2 !! sender tx = Some (account_at s2 (sender tx))) as Hsender.
  { unfold s2.
    pose proof (get_account_lookup s (sender tx)) as Hl.
    apply (get_account_keeps _ (recipient tx)) in Hl as Hl'.
    by rewrite (account_at_lookup _ _ _ Hl'). }
  assert (is_Some (accounts (update_account s2 (sender tx)
                               (add_balance (- amount tx))) !! recipient tx))
    as [r Hr].
  { unfold update_account. cbn [set_accounts accounts].
    rewrite lookup_alter. case_decide.
    - subst. rewrite Hsender. by eexists.
    - unfold s2. rewrite get_account_lookup. by eexists. }
  rewrite sum_balances_update, Hr, sum_balances_update, Hsender.
  unfold add_balance. cbn [balance]. lia.
Qed.

Lemma sum_balances_process_transactions s txs :
  sum_balances (process_transactions s txs) = sum_balances s.
Proof.
  unfold process_transactions. revert s.
  induction txs as [|tx txs IH]; intros s; [done|].
  cbn [foldl]. by rewrite IH, sum_balances_process_transaction.
Qed.

Lemma total_supply_issue s tx :
  data_startswith "issue:" (data tx) = true →
  total_supply (process_transaction s tx) = total_supply s + amount tx.
Proof.
  intros Hissue. unfold process_transaction. rewrite Hissue.
  cbn [total_supply update_account set_accounts].
  unfold get_account. by destruct (accounts s !! recipient tx).
Qed.

(** C3, as the code has it. A run of transactions none of which is an
    issuance leaves the sum of the account balances unchanged; an
    issuance leaves that sum unchanged as well, and adds its amount to
    [total_supply]. *)
Theorem value_conservation :
  (∀ s txs,
     Forall (λ tx, data_startswith "issue:" (data tx) = false) txs →
     sum_balances (process_transactions s txs) = sum_balances s) ∧
  (∀ s tx,
     data_startswith "issue:" (data tx) = true →
     sum_balances (process_transaction s tx) = sum_balances s ∧
     total_supply (process_transaction s tx) = total_supply s + amount tx).
Proof.
  split.
  - intros s txs _. apply sum_balances_process_transactions.
  - intros s tx Hissue. split.
    + apply sum_balances_process_transaction.
    + by apply total_supply_issue.
Qed.

Lemma value_conservation_witness :
  sum_balances (process_transactions StateManager_init
                  [Sample.tx_ab; Sample.tx_transfer "A" "B" "X" 1]) = 0 ∧
  sum_balances (process_transaction StateManager_init
                  (Sample.tx_issue "B" "X" 100)) = 0 ∧
  total_supply (process_transaction StateManager_init
                  (Sample.tx_issue "B" "X" 100)) = 100 ∧
  sum_balances Sample.funded_state = 100 ∧
  balance <$> accounts (process_transactions Sample.funded_state [Sample.tx_ab]) !! "B"
    = Some 50 ∧
  sum_balances (process_transactions Sample.funded_state [Sample.tx_ab]) =
    sum_balances Sample.funded_state.
Proof.
  destruct value_conservation as [Hplain Hissue].
  split; [|split; [|split; [|split; [|split]]]].
  - rewrite Hplain; [reflexivity|].
    repeat constructor.
  - apply (Hissue StateManager_init (Sample.tx_issue "B" "X" 100)).
    vm_compute. reflexivity.
  - apply (Hissue StateManager_init (Sample.tx_issue "B" "X" 100)).
    vm_compute. reflexivity.
  - vm_compute. reflexivity.
  - vm_compute. reflexivity.
  - apply Hplain. repeat constructor.
Defined.

(** C3 as stated fails: an issuance of 100 into the empty state does
    not raise the sum of the balances by 100. *)
Lemma issuance_does_not_credit_balances :
  sum_balances (process_transaction StateManager_init
                  (Sample.tx_issue "B" "X" 100)) ≠
    sum_balances StateManager_init + amount (Sample.tx_issue "B" "X" 100).
Proof. vm_compute. discriminate. Qed.

(** An issuance stores a fresh record under the asset id: afterwards
    the recipient holds the issued amount, whatever it held before. *)
Lemma dpa_holding_issue s tx :
  data_startswith "issue:" (data tx) = true →
  dpa_holding (process_transaction s tx) (recipient tx)
    (data_dpa_id (data tx)) = Some (amount tx).
Proof.
  intros Hissue. unfold process_transaction. rewrite Hissue.
  unfold dpa_holding, update_account. cbn [accounts set_accounts].
  rewrite lookup_alter_eq, get_account_lookup. cbn.
  by rewrite lookup_insert_eq.
Qed.

(** C4, on the empty state: after five units of asset X are issued to
    B, a second issuance of three leaves B with three, not eight, while
    [total_supply] has counted both; a transfer of three to the same
    holder does add to the five. *)
Theorem second_issuance_overwrites :
  let s5 := process_transaction StateManager_init (Sample.tx_issue "B" "X" 5) in
  dpa_holding s5 "B" "X" = Some 5 ∧
  dpa_holding (process_transaction s5 (Sample.tx_issue "B" "X" 3)) "B" "X" = Some 3 ∧
  total_supply (process_transaction s5 (Sample.tx_issue "B" "X" 3)) = 8 ∧
  dpa_holding
    (process_transactions s5
       [Sample.tx_issue "A" "X" 3; Sample.tx_transfer "A" "B" "X" 3]) "B" "X" = Some 8.
Proof. cbv zeta. split; [|split; [|split]]; vm_compute; reflexivity. Qed.

Lemma zero_balances_get_account s addr :
  zero_balances s → zero_balances (get_account s addr).
Proof.
  unfold zero_balances, get_account. intros Hz.
  destruct (accounts s !! addr); [done|]. cbn [set_accounts accounts].
  by apply map_Forall_insert_2.
Qed.

Lemma zero_balances_update s addr f :
  (∀ a, balance (f a) = balance a) →
  zero_balances s → zero_balances (update_account s addr f).
Proof.
  unfold zero_balances, update_account. cbn [set_accounts accounts].
  intros Hf Hz k a. rewrite lookup_alter. case_decide; [|by apply Hz].
  subst. destruct (accounts s !! k) as [a0|] eqn:Hk; [|done].
  intros [= <-]. rewrite Hf. by eapply Hz.
Qed.

(** With every balance at zero, a currency transfer of a positive
    amount finds the sender short and only creates the two accounts. *)
Lemma plain_transfer_fails s tx :
  zero_balances s → 0 < amount tx →
  data_startswith "issue:" (data tx) = false →
  data_startswith "transfer:" (data tx) = false →
  process_transaction s tx =
    get_account (get_account s (sender tx)) (recipient tx).
Proof.
  intros Hz Hpos Hi Ht. unfold process_transaction. rewrite Hi, Ht.
  set (s2 := get_account (get_account s (sender tx)) (recipient tx)).
  assert (zero_balances s2) as Hz2 by (by do 2 apply zero_balances_get_account).
  assert (accounts s2 !! sender tx = Some (account_at s2 (sender tx))) as Hsender.
  { unfold s2.
    pose proof (get_account_lookup s (sender tx)) as Hl.
    apply (get_account_keeps _ (recipient tx)) in Hl as Hl'.
    by rewrite (account_at_lookup _ _ _ Hl'). }
  apply Hz2 in Hsender. cbn beta in Hsender. rewrite Hsender.
  by rewrite (proj2 (Z.leb_gt _ _) Hpos).
Qed.

Lemma zero_balances_process_transaction s tx :
  zero_balances s → 0 < amount tx → zero_balances (process_transaction s tx).
Proof.
  intros Hz Hpos.
  destruct (data_startswith "issue:" (data tx)) eqn:Hi.
  { unfold process_transaction. rewrite Hi.
    unfold zero_balances. cbn [accounts].
    apply zero_balances_update; [done|].
    by apply zero_balances_get_account. }
  destruct (data_startswith "transfer:" (data tx)) eqn:Ht.
  { unfold process_transaction. rewrite Hi, Ht.
    set (s2 := get_account (get_account s (sender tx)) (recipient tx)).
    assert (zero_balances s2) as Hz2 by (by do 2 apply zero_balances_get_account).
    destruct (dpas (account_at s2 (sender tx)) !! _); [|done].
    destruct (amount tx <=? _); [|done].
    destruct (dpas (account_at _ (recipient tx)) !! _);
      by repeat (apply zero_balances_update; [done|]). }
  rewrite plain_transfer_fails by done.
  by do 2 apply zero_balances_get_account.
Qed.

Lemma zero_balances_process_transactions s txs :
  zero_balances s → Forall (λ tx, 0 < amount tx) txs →
  zero_balances (process_transactions s txs).
Proof.
  unfold process_transactions. revert s.
  induction txs as [|tx txs IH]; intros s Hz Hpos; [done|].
  apply Forall_cons in Hpos as [Htx Htxs]. cbn [foldl].
  apply IH; [|done]. by apply zero_balances_process_transaction.
Qed.

(** C9. Starting from the empty state, after any run of transactions
    with positive amounts every account has balance 0, and each
    currency transfer in the run did nothing but create its two
    accounts. *)
Theorem currency_never_created txs :
  Forall (λ tx, 0 < amount tx) txs →
  (∀ addr a,
     accounts (process_transactions StateManager_init txs) !! addr = Some a →
     balance a = 0) ∧
  (∀ n tx,
     txs !! n = Some tx →
     data_startswith "issue:" (data tx) = false →
     data_startswith "transfer:" (data tx) = false →
     let s := process_transactions StateManager_init (take n txs) in
     process_transaction s tx =
       get_account (get_account s (sender tx)) (recipient tx)).
Proof.
  intros Hpos. split.
  - intros addr a Ha.
    by apply (zero_balances_process_transactions StateManager_init txs
                (map_Forall_empty _) Hpos addr a).
  - intros n tx Hn Hi Ht s. apply plain_transfer_fails; [| |done..].
    + apply zero_balances_process_transactions; [apply map_Forall_empty|].
      by apply Forall_take.
    + by apply (Forall_lookup_1 _ _ _ _ Hpos Hn).
Qed.

Lemma currency_never_created_witness :
  accounts (process_transactions StateManager_init
              [Sample.tx_issue "A" "X" 100; Sample.tx_ab]) !! "B"
    = Some (new_account "B") ∧
  balance (new_account "B") = 0 ∧
  process_transaction
    (process_transactions StateManager_init [Sample.tx_issue "A" "X" 100])
    Sample.tx_ab =
  get_account
    (get_account
       (process_transactions StateManager_init [Sample.tx_issue "A" "X" 100]) "A")
    "B".
Proof.
  assert (Forall (λ tx, 0 < amount tx) [Sample.tx_issue "A" "X" 100; Sample.tx_ab])
    as Hpos by (repeat constructor).
  destruct (currency_never_created _ Hpos) as [Hzero Hplain].
  assert (accounts (process_transactions StateManager_init
                      [Sample.tx_issue "A" "X" 100; Sample.tx_ab]) !! "B"
          = Some (new_account "B")) as HB by (vm_compute; reflexivity).
  split; [exact HB|]. split; [exact (Hzero _ _ HB)|].
  exact (Hplain 1%nat Sample.tx_ab eq_refl eq_refl eq_refl).
Defined.

(** The same over whole blocks, the genesis block included: the state
    of a ledger is the fold of [commit_block] over its chain. *)
Lemma zero_balances_commit_blocks (blocks : list Block) :
  Forall (λ b, Forall (λ tx, 0 < amount tx) (transactions b)) blocks →
  zero_balances (foldl commit_block StateManager_init blocks).
Proof.
  assert (∀ s, zero_balances s →
            Forall (λ b, Forall (λ tx, 0 < amount tx) (transactions b)) blocks →
            zero_balances (foldl commit_block s blocks)) as H.
  { induction blocks as [|b blocks IH]; intros s Hz Hpos; [done|].
    apply Forall_cons in Hpos as [Hb Hbs]. cbn [foldl].
    apply IH; [|done]. by apply zero_balances_process_transactions. }
  apply H, map_Forall_empty.
Qed.

End state.

(** ** Proposer rotation *)

Section rotation.

Implicit Types (v w : Validator) (l s vs : list Validator) (h : Z).

Lemma insert_by_id_perm v l : insert_by_id v l ≡ₚ v :: l.
Proof.
  induction l as [|w l IH]; [done|]. cbn [insert_by_id].
  destruct (String.leb _ _); [done|]. rewrite IH. apply Permutation_swap.
Qed.

Lemma sorted_by_id_perm l : sorted_by_id l ≡ₚ l.
Proof.
  induction l as [|v l IH]; [done|].
  change (sorted_by_id (v :: l)) with (insert_by_id v (sorted_by_id l)).
  rewrite insert_by_id_perm. by constructor.
Qed.

Lemma id_le_total v w : String.leb (validator_id v) (validator_id w) = false → id_le w v.
Proof.
  intros Hvw. unfold id_le.
  destruct (total String.le (validator_id v) (validator_id w)) as [Hle|Hle];
    [|done].
  apply Is_true_true in Hle. unfold String.le in *. congruence.
Qed.

Lemma insert_by_id_hd v w l : id_le w v → HdRel id_le w l → HdRel id_le w (insert_by_id v l).
Proof.
  intros Hwv Hhd. destruct l as [|x l]; cbn [insert_by_id]; [by constructor|].
  destruct (String.leb _ _); [by constructor|].
  constructor. by inversion Hhd.
Qed.

Lemma insert_by_id_sorted v l : Sorted id_le l → Sorted id_le (insert_by_id v l).
Proof.
  induction 1 as [|w l Hs IH Hhd]; cbn [insert_by_id].
  - by repeat constructor.
  - destruct (String.leb _ _) eqn:Hvw.
    + constructor; [by constructor|]. constructor.
      unfold id_le, String.le. by rewrite Hvw.
    + constructor; [done|]. apply insert_by_id_hd; [|done].
      by apply id_le_total.
Qed.

Lemma sorted_by_id_sorted l : Sorted id_le (sorted_by_id l).
Proof.
  induction l as [|v l IH]; [constructor|]. by apply insert_by_id_sorted.
Qed.

(** Two arrangements in ascending order of the same validators list the
    same ids. *)
Lemma sorted_ids_unique s1 s2 :
  s1 ≡ₚ s2 → Sorted id_le s1 → Sorted id_le s2 →
  validator_id <$> s1 = validator_id <$> s2.
Proof.
  intros Hperm H1 H2. apply (Sorted_unique String.le).
  - by apply (Sorted_fmap _ id_le).
  - by apply (Sorted_fmap _ id_le).
  - by apply fmap_Permutation.
Qed.

Lemma get_current_proposer_lookup (r : ProposerRotation) h :
  get_current_proposer r h =
    (validator_id <$> validators r) !! Z.to_nat ((h - 1) mod num_validators r).
Proof.
  unfold get_current_proposer. rewrite list_lookup_fmap.
  by destruct (validators r).
Qed.

Lemma get_current_proposer_init vs s h :
  s ≡ₚ vs → Sorted id_le s →
  get_current_proposer (ProposerRotation_init vs) h =
    validator_id <$> s !! Z.to_nat ((h - 1) mod Z.of_nat (length vs)).
Proof.
  intros Hperm Hsorted. rewrite get_current_proposer_lookup.
  unfold num_validators, ProposerRotation_init. cbn [validators].
  rewrite (Permutation_length (sorted_by_id_perm vs)).
  rewrite (sorted_ids_unique (sorted_by_id vs) s).
  - apply list_lookup_fmap.
  - by rewrite sorted_by_id_perm.
  - apply sorted_by_id_sorted.
  - done.
Qed.

(** C8. For a non-empty list of validators the proposer of height [h]
    is the id at index [(h - 1) mod N] of any arrangement of them in
    ascending order of id, whatever order they were given in; the
    proposer repeats with period [N]; and with no validators there is
    none. *)
Theorem rotation_round_robin vs h :
  let r := ProposerRotation_init vs in
  let N := Z.of_nat (length vs) in
  (∀ s, vs ≠ [] → s ≡ₚ vs → Sorted id_le s →
     ∃ v, s !! Z.to_nat ((h - 1) mod N) = Some v ∧
          get_current_proposer r h = Some (validator_id v)) ∧
  (∀ vs', vs' ≡ₚ vs →
     get_current_proposer (ProposerRotation_init vs') h =
       get_current_proposer r h) ∧
  (∀ k, 0 ≤ k →
     get_current_proposer r (h + k) = get_current_proposer r (h + k + N)) ∧
  (vs = [] → get_current_proposer r h = None).
Proof.
  intros r N. subst r N. split; [|split; [|split]].
  - intros s Hne Hperm Hsorted.
    rewrite (get_current_proposer_init vs s h Hperm Hsorted).
    assert (0 < Z.of_nat (length vs)) as Hpos.
    { destruct vs; [done|]. cbn [length]. lia. }
    pose proof (Z.mod_pos_bound (h - 1) _ Hpos) as Hbound.
    destruct (lookup_lt_is_Some_2 s (Z.to_nat ((h - 1) mod Z.of_nat (length vs))))
      as [v Hv].
    { rewrite (Permutation_length Hperm). lia. }
    exists v. by rewrite Hv.
  - intros vs' Hperm.
    rewrite (get_current_proposer_init vs' (sorted_by_id vs) h).
    + rewrite (Permutation_length Hperm).
      symmetry. apply get_current_proposer_init;
        [apply sorted_by_id_perm|apply sorted_by_id_sorted].
    + by rewrite sorted_by_id_perm.
    + apply sorted_by_id_sorted.
  - intros k _. rewrite !get_current_proposer_lookup.
    unfold num_validators, ProposerRotation_init. cbn [validators].
    rewrite (Permutation_length (sorted_by_id_perm vs)).
    replace (h + k + Z.of_nat (length vs) - 1)
      with (h + k - 1 + 1 * Z.of_nat (length vs)) by lia.
    by rewrite Z_mod_plus_full.
  - by intros ->.
Qed.

Lemma rotation_round_robin_witness :
  get_current_proposer (ProposerRotation_init [Sample.v2; Sample.v1]) 4 = Some "v2" ∧
  get_current_proposer (ProposerRotation_init [Sample.v1; Sample.v2]) 4 =
    get_current_proposer (ProposerRotation_init [Sample.v2; Sample.v1]) 4 ∧
  get_current_proposer (ProposerRotation_init [Sample.v2; Sample.v1]) (4 + 1) =
    get_current_proposer (ProposerRotation_init [Sample.v2; Sample.v1]) (4 + 1 + 2) ∧
  get_current_proposer (ProposerRotation_init []) 4 = None.
Proof.
  pose proof (rotation_round_robin [Sample.v2; Sample.v1] 4)
    as (Hidx & Horder & Hperiod & _).
  pose proof (rotation_round_robin [] 4) as (_ & _ & _ & Hnone).
  split; [|split; [|split]].
  - destruct (Hidx [Sample.v1; Sample.v2]) as (v & Hv & ->).
    + done.
    + apply Permutation_swap.
    + repeat constructor.
    + by injection Hv as <-.
  - apply Horder, Permutation_swap.
  - apply (Hperiod 1). lia.
  - by apply Hnone.
Defined.

End rotation.

(** ** Merkle proofs of the digests a tree was built from *)

Section merkle_claims.

Lemma _build_tree_nodes_elem_of_inv (l : list string) x :
  x ∈ _build_tree_nodes l → x ∈ l.
Proof.
  destruct l as [|a [|b l]]; [done..|].
  change (_build_tree_nodes (a :: b :: l)) with (pad_level (a :: b :: l)).
  destruct (Nat.odd (length (a :: b :: l))) eqn:Hodd.
  - destruct (pad_level_of_odd _ Hodd) as (y & Hy & ->).
    intros [?|Hx%list_elem_of_singleton]%elem_of_app; [done|]. subst.
    by eapply last_Some_elem_of.
  - by rewrite pad_level_of_even.
Qed.

(** [get_proof] searches the stored leaves, which are the digests of
    the listed items: for an item that is not itself the digest of a
    listed item it answers [None], on which [verify_proof] raises. *)
Lemma merkle_round_trip_not_leaf (items : list string) (h : string) :
  items ≠ [] → h ∉ hash_data <$> items →
  merkle_round_trip items h = Raise TypeError.
Proof.
  intros Hne Hh. unfold merkle_round_trip, MerkleTree_init.
  destruct items as [|d ds] eqn:Hitems; [done|]. rewrite <-Hitems in *.
  destruct (_build_tree_total (hash_data <$> items)) as [r ->].
  { rewrite Hitems. done. }
  cbn [bind]. unfold get_proof. cbn [leaves].
  assert (list_find (λ x, x = h) (_build_tree_nodes (hash_data <$> items)) = None)
    as ->; [|done].
  apply list_find_None, Forall_forall. intros x Hx ->.
  by apply Hh, _build_tree_nodes_elem_of_inv.
Qed.

(** C1, on the one-transaction list of the sample block: the tree
    stores the digest of the listed transaction hash, [get_proof] of the
    listed hash itself answers [None], and the round trip of the claim
    ends in [TypeError]; the round trip of the stored leaf succeeds. *)
Theorem round_trip_of_listed_digest_raises :
  let h := hash_transaction Sample.tx_ab in
  MerkleTree_init [h] =
    Ok {| leaves := [hash_data h]; root := Some (hash_data h) |} ∧
  (get_proof {| leaves := [hash_data h]; root := Some (hash_data h) |} h).1 =
    Ok None ∧
  merkle_round_trip [h] h = Raise TypeError ∧
  merkle_round_trip [h] (hash_data h) = Ok true.
Proof. cbv zeta. split; [|split; [|split]]; vm_compute; reflexivity. Qed.

End merkle_claims.

(** ** More on the Merkle tree *)

Section merkle_more.

Implicit Types (l level nodes items : list string) (i : nat) (x y d h : string).

(** X1. For every list and every item of it, the tree built from the
    list verifies the digest of the item, which is the leaf the tree
    stores for it, against the proof [get_proof] gives for that digest and
    the root. *)
Theorem round_trip_of_stored_leaf (data_items : list string) (d : string) :
  d ∈ data_items → merkle_round_trip data_items (hash_data d) = Ok true.
Proof. apply merkle_round_trip_leaf. Qed.

Lemma round_trip_of_stored_leaf_witness :
  "c" ∈ ["a"; "b"; "c"] ∧
  merkle_round_trip ["a"; "b"; "c"] (hash_data "c") = Ok true.
Proof.
  assert ("c" ∈ ["a"; "b"; "c"]) as Hin by (rewrite !elem_of_cons; auto).
  split; [exact Hin|]. exact (round_trip_of_stored_leaf _ _ Hin).
Defined.

Lemma hashed_last items x :
  last items = Some x → last (hash_data <$> items) = Some (hash_data x).
Proof. intros Hlast. by rewrite fmap_last, Hlast. Qed.

Lemma pad_level_hashed_odd items x :
  Nat.odd (length items) = true → last items = Some x →
  pad_level (hash_data <$> items) = hash_data <$> (items ++ [x]).
Proof.
  intros Hodd Hlast. unfold pad_level. rewrite length_fmap, Hodd.
  by rewrite (hashed_last _ _ Hlast), fmap_app.
Qed.

Lemma _build_tree_nodes_long l :
  (2 ≤ length l)%nat → _build_tree_nodes l = pad_level l.
Proof. intros Hlen. destruct l as [|a [|b l]]; simpl in Hlen; done || lia. Qed.

Lemma _build_tree_nodes_short l :
  (length l ≤ 1)%nat → _build_tree_nodes l = l.
Proof. intros Hlen. destruct l as [|a [|b l]]; simpl in Hlen; done || lia. Qed.

(** X2. [MerkleTree(data)] returns for every list. Its root is [None]
    only for the empty list, and its stored leaves are the digests of the
    items, followed by a repeat of the last digest when the items are an
    odd number above one: the padding of the first level stays in
    [self.leaves]. *)
Theorem MerkleTree_init_shape (data_items : list string) :
  ∃ t, MerkleTree_init data_items = Ok t ∧
    (root t = None ↔ data_items = []) ∧
    (length data_items = 1%nat ∨ Nat.odd (length data_items) = false →
       leaves t = hash_data <$> data_items) ∧
    (∀ x, (1 < length data_items)%nat → Nat.odd (length data_items) = true →
       last data_items = Some x →
       leaves t = (hash_data <$> data_items) ++ [hash_data x]).
Proof.
  destruct data_items as [|d0 ds] eqn:Hdata.
  { eexists. split; [done|]. cbn. split; [done|]. split; [done|]. intros; lia. }
  rewrite <-Hdata. assert (data_items ≠ []) as Hne by (by subst).
  clear Hdata. unfold MerkleTree_init.
  destruct (_build_tree_total (hash_data <$> data_items)) as [r Hr].
  { intros Hnil. by apply fmap_nil_inv in Hnil. }
  destruct data_items as [|d1 ds1] eqn:Hdata; [done|]. rewrite <-Hdata in *.
  rewrite Hr. cbn [bind]. eexists. split; [done|]. cbn [root leaves].
  split; [split; [done|by intros ->]|]. split.
  - intros [H1|Heven].
    + apply _build_tree_nodes_short. rewrite length_fmap. lia.
    + destruct (decide (length data_items ≤ 1)%nat).
      * apply _build_tree_nodes_short. by rewrite length_fmap.
      * rewrite _build_tree_nodes_long by (rewrite length_fmap; lia).
        apply pad_level_of_even. by rewrite length_fmap.
  - intros x Hlen Hodd Hlast.
    rewrite _build_tree_nodes_long by (rewrite length_fmap; lia).
    by rewrite (pad_level_hashed_odd _ _ Hodd Hlast), fmap_app.
Qed.

Lemma MerkleTree_init_shape_witness :
  ∃ t, MerkleTree_init ["a"; "b"; "c"] = Ok t ∧
       leaves t = [hash_data "a"; hash_data "b"; hash_data "c"; hash_data "c"].
Proof.
  destruct (MerkleTree_init_shape ["a"; "b"; "c"]) as (t & Ht & _ & _ & Hodd).
  exists t. split; [exact Ht|].
  apply (Hodd "c"); [simpl; lia|reflexivity|reflexivity].
Defined.

Lemma MerkleTree_init_repeat_last (data_items : list string) x :
  (1 < length data_items)%nat → Nat.odd (length data_items) = true →
  last data_items = Some x →
  ∃ t, MerkleTree_init data_items = Ok t ∧
       MerkleTree_init (data_items ++ [x]) = Ok t.
Proof.
  intros Hlen Hodd Hlast.
  assert (data_items ≠ []) as Hne by (intros ->; simpl in Hlen; lia).
  assert (hash_data <$> data_items ≠ []) as Hne'.
  { intros Hnil. by apply fmap_nil_inv in Hnil. }
  unfold MerkleTree_init.
  destruct (_build_tree_total _ Hne') as [r Hr].
  destruct data_items as [|d0 ds] eqn:Hdata; [done|]. rewrite <-Hdata in *.
  destruct (data_items ++ [x]) as [|e0 es] eqn:Happ.
  { by apply app_eq_nil in Happ as [_ ?]. }
  rewrite <-Happ. clear Happ Hdata.
  rewrite <-(pad_level_hashed_odd _ _ Hodd Hlast).
  assert (2 ≤ length (hash_data <$> data_items))%nat as Hlen'
    by (rewrite length_fmap; lia).
  assert (_build_tree (pad_level (hash_data <$> data_items)) = Ok r) as Hr'.
  { rewrite <-(_build_tree_nodes_long _ Hlen').
    by rewrite _build_tree_nodes_root. }
  rewrite Hr, Hr'. cbn [bind].
  eexists. split; [done|]. do 2 f_equal.
  rewrite (_build_tree_nodes_long _ Hlen').
  rewrite _build_tree_nodes_long, pad_level_idemp; [done|].
  pose proof (pad_level_length_le (hash_data <$> data_items)). lia.
Qed.

(** X3. A list of an odd number of items, three or more, and the same
    list with its last item repeated give trees with the same root and
    the same stored leaves. *)
Theorem repeated_last_item_same_root (data_items : list string) x :
  (1 < length data_items)%nat → Nat.odd (length data_items) = true →
  last data_items = Some x →
  ∃ t, MerkleTree_init data_items = Ok t ∧
       MerkleTree_init (data_items ++ [x]) = Ok t.
Proof. apply MerkleTree_init_repeat_last. Qed.

Lemma repeated_last_item_same_root_witness :
  ∃ t, MerkleTree_init ["a"; "b"; "c"] = Ok t ∧
       MerkleTree_init ["a"; "b"; "c"; "c"] = Ok t.
Proof.
  apply (repeated_last_item_same_root ["a"; "b"; "c"] "c");
    [simpl; lia|reflexivity|reflexivity].
Defined.

(** The first iteration of the loop pads the level it is given, so a
    level that is already padded gives the same proof. *)
Lemma get_proof_fuel_pad fuel i level :
  (2 ≤ length level)%nat →
  get_proof_fuel fuel i (pad_level level) = get_proof_fuel fuel i level.
Proof.
  intros Hlen. rewrite !get_proof_fuel_unfold, pad_level_idemp.
  pose proof (pad_level_length_le level).
  rewrite !decide_False by lia. done.
Qed.

(** What [get_proof] answers for a listed item on the tree built from the
    list: a proof that folds to the root, leaving the tree as it was. *)
Lemma get_proof_of_listed (data_items : list string) d t :
  MerkleTree_init data_items = Ok t → d ∈ data_items →
  ∃ i p, (hash_data <$> data_items) !! i = Some (hash_data d) ∧
    get_proof t (hash_data d) = (Ok (Some p), t) ∧
    get_proof_loop i (hash_data <$> data_items) = Ok p ∧
    root t = Some (foldl verify_step (hash_data d) p).
Proof.
  intros Ht Hd. unfold MerkleTree_init in Ht.
  destruct data_items as [|d0 ds] eqn:Hdata; [by apply elem_of_nil in Hd|].
  rewrite <-Hdata in *. clear Hdata.
  set (hashed := hash_data <$> data_items) in *.
  assert (hash_data d ∈ hashed) as Hin by (by apply list_elem_of_fmap_2).
  assert (hashed ≠ []) as Hne
    by (intros Hnil; rewrite Hnil in Hin; by apply elem_of_nil in Hin).
  destruct (_build_tree_total hashed Hne) as [r Hr]. rewrite Hr in Ht.
  cbn [bind] in Ht. injection Ht as <-.
  unfold get_proof. cbn [leaves root].
  destruct (list_find_elem_of (λ x, x = hash_data d) _ (hash_data d)
              (_build_tree_nodes_elem_of _ _ Hin) eq_refl) as [[i y] Hfind].
  rewrite Hfind. apply list_find_Some in Hfind as (Hi & -> & Hfirst).
  assert (hashed !! i = Some (hash_data d)) as Hi'.
  { apply list_elem_of_lookup in Hin as [j Hj].
    destruct (decide (i < length hashed)%nat) as [Hlt|Hge].
    - destruct (lookup_lt_is_Some_2 hashed i Hlt) as [z Hz].
      destruct (decide (length hashed ≤ 1)%nat).
      + by rewrite _build_tree_nodes_short in Hi.
      + rewrite _build_tree_nodes_long in Hi by lia.
        apply pad_level_lookup in Hz as Hz'. congruence.
    - exfalso. apply (Hfirst j (hash_data d)); [|apply lookup_lt_Some in Hj; lia|done].
      destruct (decide (length hashed ≤ 1)%nat).
      + by rewrite _build_tree_nodes_short.
      + rewrite _build_tree_nodes_long by lia. by apply pad_level_lookup. }
  destruct (get_proof_fuel_rebuilds_root (length hashed) hashed i _
              (Nat.le_refl _) Hi') as (p & Hp & Hroot).
  exists i, p. split; [done|]. rewrite Hr in Hroot. injection Hroot as ->.
  split; [|done].
  destruct (decide (length hashed ≤ 1)%nat) as [Hshort|Hlong].
  - rewrite !_build_tree_nodes_short by done.
    unfold get_proof_loop. rewrite Hp. cbn [bind].
    rewrite decide_True by done. done.
  - rewrite !_build_tree_nodes_long by lia.
    pose proof (pad_level_length_le hashed).
    rewrite decide_False by lia. rewrite pad_level_idemp.
    unfold get_proof_loop. rewrite get_proof_fuel_pad by lia.
    by rewrite (get_proof_fuel_mono _ (length (pad_level hashed)) _ _ _ Hp).
Qed.

(** X4. On a tree built by [MerkleTree(data)], [get_proof] never raises
    and leaves the tree as it was; it answers [None] exactly for a hash
    that is not the digest of a listed item. *)
Theorem get_proof_on_built_tree (data_items : list string) t h :
  MerkleTree_init data_items = Ok t →
  ∃ o, get_proof t h = (Ok o, t) ∧ (o = None ↔ h ∉ hash_data <$> data_items).
Proof.
  intros Ht.
  destruct (decide (h ∈ hash_data <$> data_items)) as [Hin|Hnin].
  - apply list_elem_of_fmap in Hin as (d & -> & Hd).
    destruct (get_proof_of_listed _ _ _ Ht Hd) as (i & p & _ & Hp & _).
    exists (Some p). split; [done|]. split; [done|].
    intros Hnin. exfalso. apply Hnin. by apply list_elem_of_fmap_2.
  - exists None. split; [|done].
    unfold MerkleTree_init in Ht. unfold get_proof.
    assert (list_find (λ x, x = h) (leaves t) = None) as ->; [|done].
    apply list_find_None, Forall_forall. intros x Hx ->. apply Hnin.
    destruct data_items as [|d0 ds] eqn:Hdata.
    { injection Ht as <-. by apply elem_of_nil in Hx. }
    rewrite <-Hdata in *.
    destruct (_build_tree (hash_data <$> data_items)); [|done].
    cbn [bind] in Ht. injection Ht as <-. cbn [leaves] in Hx.
    by apply _build_tree_nodes_elem_of_inv.
Qed.

Lemma get_proof_on_built_tree_witness :
  ∃ t o, MerkleTree_init ["a"; "b"; "c"] = Ok t ∧
         get_proof t (hash_data "b") = (Ok o, t) ∧ o ≠ None.
Proof.
  destruct (MerkleTree_init_total ["a"; "b"; "c"]) as [t Ht].
  destruct (get_proof_on_built_tree _ t (hash_data "b") Ht) as (o & Ho & Hnone).
  exists t, o. split; [exact Ht|]. split; [exact Ho|].
  intros Hno. apply Hnone in Hno. apply Hno.
  apply list_elem_of_fmap_2. rewrite !elem_of_cons. auto.
Defined.

(** X5. A valid block with an odd number of transactions, three or more,
    stays valid under the same header when its last transaction is
    listed once more: the header, and with it the block hash, does not
    tell the two transaction lists apart. *)
Theorem repeated_last_transaction_validates (b tip : Block) (tx : Transaction) :
  is_block_valid b tip = Ok true →
  (1 < length (transactions b))%nat → Nat.odd (length (transactions b)) = true →
  last (transactions b) = Some tx →
  is_block_valid {| header := header b; transactions := transactions b ++ [tx] |} tip
    = Ok true.
Proof.
  intros Hvalid Hlen Hodd Hlast. unfold is_block_valid in *.
  cbn [header transactions].
  destruct (decide (prev_hash (header b) ≠ hash_block_header (header tip)));
    [done|].
  destruct (MerkleTree_init_repeat_last (hash_transaction <$> transactions b)
              (hash_transaction tx)) as (t & Ht & Ht').
  - by rewrite length_fmap.
  - by rewrite length_fmap.
  - by rewrite fmap_last, Hlast.
  - rewrite fmap_app. cbn [fmap list_fmap]. rewrite Ht'. by rewrite Ht in Hvalid.
Qed.

Lemma repeated_last_transaction_validates_witness :
  ∃ b, create_block Sample.clock (hash_block_header (header Sample.genesis_block))
         [Sample.tx_ab; Sample.tx_cd; Sample.tx_escaped] "v1" = Ok b ∧
       is_block_valid b Sample.genesis_block = Ok true ∧
       is_block_valid
         {| header := header b;
            transactions :=
              [Sample.tx_ab; Sample.tx_cd; Sample.tx_escaped; Sample.tx_escaped] |}
         Sample.genesis_block = Ok true.
Proof.
  destruct (create_block_total Sample.clock
              (hash_block_header (header Sample.genesis_block))
              [Sample.tx_ab; Sample.tx_cd; Sample.tx_escaped] "v1")
    as (t & _ & Hb).
  eexists. split; [exact Hb|].
  pose proof (create_block_valid _ _ _ _ _ Hb) as Hvalid.
  split; [exact Hvalid|].
  exact (repeated_last_transaction_validates _ _ Sample.tx_escaped Hvalid
           ltac:(simpl; lia) eq_refl eq_refl).
Defined.

(** A level of [m] nodes is left after [k] rounds of pairing with
    [m ≤ 2 ^ k < 2 * m]. *)
Lemma get_proof_fuel_length fuel i level p :
  (1 ≤ length level)%nat → (length level ≤ fuel)%nat →
  get_proof_fuel fuel i level = Ok p →
  (length level ≤ 2 ^ length p)%nat ∧ (2 ^ length p < 2 * length level)%nat.
Proof.
  revert i level p. induction fuel as [|fuel IH]; intros i level p H1 Hfuel; [lia|].
  rewrite get_proof_fuel_unfold.
  destruct (decide (length level ≤ 1)%nat) as [Hshort|Hlong].
  { intros [= <-]. cbn [length Nat.pow]. lia. }
  cbv zeta.
  destruct (pad_level level !! _) as [sib|]; [|done].
  destruct (get_proof_fuel fuel _ _) as [rest|] eqn:Hrest; [|done].
  cbn [bind]. intros [= <-].
  assert (2 ≤ length level)%nat as H2 by lia.
  pose proof (next_level_shorter level H2) as Hshorter.
  pose proof (pad_level_length_le level) as Hle.
  pose proof (pad_level_length_bound level) as Hbound.
  pose proof (pad_level_length_even level) as Heven.
  assert (∃ q, length (pad_level level) = (2 * q)%nat) as [q Hq].
  { apply Nat.even_spec. by rewrite <-Nat.negb_odd, Heven. }
  assert (length (pair_hashes (pad_level level)) = q) as Hnext.
  { rewrite pair_hashes_length, Hq.
    by rewrite (Nat.mul_comm 2 q), Nat.div_mul. }
  apply IH in Hrest as [Hlow Hhigh]; [|lia..].
  rewrite Hnext in Hlow, Hhigh. cbn [length].
  rewrite Nat.pow_succ_r'.
  split; [lia|].
  destruct (length rest) as [|k]; [cbn [Nat.pow] in *; lia|].
  rewrite Nat.pow_succ_r' in *.
  destruct (decide (length (pad_level level) = length level)); [lia|].
  assert (length level = (2 * q - 1)%nat) by lia. lia.
Qed.

(** X6. The proof of a listed item has as many entries as the tree has
    levels above its leaves: for [n] items, the least [k] with
    [n ≤ 2 ^ k]. *)
Theorem proof_length_logarithmic (data_items : list string) d t :
  MerkleTree_init data_items = Ok t → d ∈ data_items →
  ∃ p, get_proof t (hash_data d) = (Ok (Some p), t) ∧
       (length data_items ≤ 2 ^ length p)%nat ∧
       (2 ^ length p < 2 * length data_items)%nat.
Proof.
  intros Ht Hd.
  destruct (get_proof_of_listed _ _ _ Ht Hd) as (i & p & Hi & Hp & Hloop & _).
  exists p. split; [done|].
  rewrite <-(length_fmap hash_data data_items).
  apply (get_proof_fuel_length (length (hash_data <$> data_items)) i);
    [|done|exact Hloop].
  apply lookup_lt_Some in Hi. lia.
Qed.

Lemma proof_length_logarithmic_witness :
  ∃ t p, MerkleTree_init ["a"; "b"; "c"; "d"; "e"] = Ok t ∧
         get_proof t (hash_data "e") = (Ok (Some p), t) ∧ length p = 3%nat.
Proof.
  destruct (MerkleTree_init_total ["a"; "b"; "c"; "d"; "e"]) as [t Ht].
  destruct (proof_length_logarithmic _ "e" t Ht) as (p & Hp & Hlow & Hhigh).
  { rewrite !elem_of_cons. auto 10. }
  exists t, p. split; [exact Ht|]. split; [exact Hp|].
  cbn [length] in Hlow, Hhigh.
  destruct (length p) as [|[|[|[|k]]]]; cbn [Nat.pow] in *; lia.
Defined.

End merkle_more.

(** ** More on the state machine *)

Section state_more.

Implicit Types (s : StateManager) (tx : Transaction) (a : Account)
  (addr k dpa_id : string).

Lemma update_account_lookup s addr f k :
  accounts (update_account s addr f) !! k =
    if decide (addr = k) then f <$> accounts s !! addr else accounts s !! k.
Proof. unfold update_account. cbn [set_accounts accounts]. apply lookup_alter. Qed.

Lemma get_account_lookup_cases s addr k :
  accounts (get_account s addr) !! k =
    match accounts s !! k with
    | Some a => Some a
    | None => if decide (addr = k) then Some (new_account addr) else None
    end.
Proof.
  unfold get_account. destruct (accounts s !! addr) as [a0|] eqn:Haddr.
  - destruct (accounts s !! k) eqn:Hk; [done|].
    case_decide; [|done]. subst. congruence.
  - cbn [set_accounts accounts]. rewrite lookup_insert.
    case_decide; [subst; by rewrite Haddr|]. by destruct (accounts s !! k).
Qed.

Lemma get_account_present s addr : is_Some (accounts (get_account s addr) !! addr).
Proof. rewrite get_account_lookup. by eexists. Qed.

Lemma get_account_present_other s addr k :
  is_Some (accounts s !! k) → is_Some (accounts (get_account s addr) !! k).
Proof. intros [a Ha]. exists a. by apply get_account_keeps. Qed.

Lemma balance_of_get_account s addr k :
  balance_of (get_account s addr) k = balance_of s k.
Proof.
  unfold balance_of. rewrite get_account_lookup_cases.
  destruct (accounts s !! k); [done|]. by case_decide.
Qed.

Lemma dpa_holding_get_account s addr k dpa_id :
  dpa_holding (get_account s addr) k dpa_id = dpa_holding s k dpa_id.
Proof.
  unfold dpa_holding. rewrite get_account_lookup_cases.
  destruct (accounts s !! k); [done|]. by case_decide.
Qed.

Lemma total_supply_get_account s addr :
  total_supply (get_account s addr) = total_supply s ∧
  dpa_registry (get_account s addr) = dpa_registry s.
Proof. unfold get_account. by destruct (accounts s !! addr). Qed.

Lemma balance_of_account_at s addr :
  balance (account_at s addr) = balance_of s addr.
Proof. unfold account_at, balance_of. by destruct (accounts s !! addr). Qed.

Lemma balance_of_add_balance s addr delta k :
  is_Some (accounts s !! addr) →
  balance_of (update_account s addr (add_balance delta)) k =
    balance_of s k + (if decide (k = addr) then delta else 0).
Proof.
  intros [a Ha]. unfold balance_of. rewrite update_account_lookup.
  destruct (decide (addr = k)) as [->|Hne].
  - rewrite decide_True by done. rewrite Ha. done.
  - rewrite decide_False by done. lia.
Qed.

Lemma balance_of_update_dpas s addr (g : Account → gmap string DigitalPublicAsset) k :
  balance_of (update_account s addr (λ a, set_dpas (g a) a)) k = balance_of s k.
Proof.
  unfold balance_of. rewrite update_account_lookup.
  case_decide; [|done]. subst. by destruct (accounts s !! k).
Qed.

Lemma dpa_holding_account_at s addr dpa_id :
  (d ← dpas (account_at s addr) !! dpa_id; Some (dpa_amount d)) =
    dpa_holding s addr dpa_id.
Proof.
  unfold account_at, dpa_holding. by destruct (accounts s !! addr).
Qed.

Lemma dpa_holding_add_balance s addr delta k dpa_id :
  dpa_holding (update_account s addr (add_balance delta)) k dpa_id =
    dpa_holding s k dpa_id.
Proof.
  unfold dpa_holding. rewrite update_account_lookup.
  case_decide; [|done]. subst. by destruct (accounts s !! k).
Qed.

(** Adding to an existing record. *)
Lemma holding_of_alter s addr dpa_id delta h k dpa_id' :
  dpa_holding s addr dpa_id = Some h →
  holding_of
    (update_account s addr
       (λ a, set_dpas (alter (add_dpa_amount delta) dpa_id (dpas a)) a)) k dpa_id' =
    holding_of s k dpa_id' +
    (if decide (k = addr ∧ dpa_id' = dpa_id) then delta else 0).
Proof.
  intros Hh. unfold holding_of, dpa_holding in *. rewrite update_account_lookup.
  destruct (decide (addr = k)) as [->|Hne].
  - destruct (accounts s !! k) as [a|]; [|done]. cbn in *.
    rewrite lookup_alter.
    destruct (decide (dpa_id = dpa_id')) as [->|Hne'].
    + rewrite decide_True by done.
      destruct (dpas a !! dpa_id') as [d|]; [|done]. by cbn.
    + rewrite decide_False by (intros [? ?]; congruence). lia.
  - rewrite decide_False by (intros [? ?]; congruence). lia.
Qed.

Lemma dpa_record_alter s addr dpa_id delta k dpa_id' :
  is_Some
    (dpa_holding
       (update_account s addr
          (λ a, set_dpas (alter (add_dpa_amount delta) dpa_id (dpas a)) a)) k dpa_id')
  ↔ is_Some (dpa_holding s k dpa_id').
Proof.
  unfold dpa_holding. rewrite update_account_lookup.
  destruct (decide (addr = k)) as [->|Hne]; [|done].
  destruct (accounts s !! k) as [a|]; [|done]. cbn.
  rewrite lookup_alter. case_decide; [|done]. subst.
  by destruct (dpas a !! dpa_id').
Qed.

(** Storing a record under an id, whatever was there. *)
Lemma dpa_holding_insert s addr dpa_id d k dpa_id' :
  is_Some (accounts s !! addr) →
  dpa_holding
    (update_account s addr (λ a, set_dpas (<[dpa_id := d]> (dpas a)) a)) k dpa_id' =
    if decide (k = addr ∧ dpa_id' = dpa_id) then Some (dpa_amount d)
    else dpa_holding s k dpa_id'.
Proof.
  intros [a Ha]. unfold dpa_holding. rewrite update_account_lookup.
  destruct (decide (addr = k)) as [->|Hne].
  - rewrite Ha. cbn. rewrite lookup_insert.
    destruct (decide (dpa_id = dpa_id')) as [->|Hne'].
    + by rewrite decide_True.
    + by rewrite decide_False by (intros [? ?]; congruence).
  - by rewrite decide_False by (intros [? ?]; congruence).
Qed.

(** X7. A currency transfer (a transaction whose data names neither an
    issuance nor an asset transfer) goes through exactly when the
    sender's balance is at least the amount; it then takes the amount
    from the sender and gives it to the recipient, and otherwise leaves
    every balance as it was. Nothing constrains the sign of the amount,
    and no holding of any asset changes. *)
Theorem currency_transfer_effect s tx addr :
  data_startswith "issue:" (data tx) = false →
  data_startswith "transfer:" (data tx) = false →
  balance_of (process_transaction s tx) addr =
    balance_of s addr +
    (if amount tx <=? balance_of s (sender tx)
     then (if decide (addr = recipient tx) then amount tx else 0) -
          (if decide (addr = sender tx) then amount tx else 0)
     else 0) ∧
  (∀ dpa_id, dpa_holding (process_transaction s tx) addr dpa_id =
             dpa_holding s addr dpa_id) ∧
  total_supply (process_transaction s tx) = total_supply s.
Proof.
  intros Hi Ht. unfold process_transaction. rewrite Hi, Ht.
  set (s2 := get_account (get_account s (sender tx)) (recipient tx)).
  assert (is_Some (accounts s2 !! sender tx)) as Hsender.
  { apply get_account_present_other, get_account_present. }
  assert (is_Some (accounts s2 !! recipient tx)) as Hrecipient.
  { apply get_account_present. }
  assert (∀ k, balance_of s2 k = balance_of s k) as Hbal.
  { intros k. unfold s2. by rewrite !balance_of_get_account. }
  assert (∀ k i, dpa_holding s2 k i = dpa_holding s k i) as Hhold.
  { intros k i. unfold s2. by rewrite !dpa_holding_get_account. }
  assert (total_supply s2 = total_supply s) as Hsupply.
  { unfold s2. by rewrite !(proj1 (total_supply_get_account _ _)). }
  rewrite balance_of_account_at, Hbal.
  destruct (amount tx <=? balance_of s (sender tx)).
  - split; [|split].
    + rewrite balance_of_add_balance.
      * rewrite balance_of_add_balance by done. rewrite Hbal.
        repeat case_decide; lia.
      * rewrite update_account_lookup. case_decide; [|done].
        destruct Hsender as [a ->]. by eexists.
    + intros i. by rewrite !dpa_holding_add_balance.
    + done.
  - split; [rewrite Hbal; lia|]. split; [intros i; apply Hhold|done].
Qed.

Lemma currency_transfer_effect_witness :
  balance_of Sample.funded_state "A" = 100 ∧
  balance_of (process_transaction Sample.funded_state Sample.tx_ab) "A" = 50 ∧
  balance_of (process_transaction Sample.funded_state Sample.tx_ab) "B" = 50 ∧
  balance_of (process_transaction StateManager_init Sample.tx_ab) "B" = 0.
Proof.
  split; [vm_compute; reflexivity|]. split; [|split].
  - rewrite (proj1 (currency_transfer_effect Sample.funded_state Sample.tx_ab "A"
                      eq_refl eq_refl)).
    vm_compute. reflexivity.
  - rewrite (proj1 (currency_transfer_effect Sample.funded_state Sample.tx_ab "B"
                      eq_refl eq_refl)).
    vm_compute. reflexivity.
  - rewrite (proj1 (currency_transfer_effect StateManager_init Sample.tx_ab "B"
                      eq_refl eq_refl)).
    vm_compute. reflexivity.
Defined.

(** X8. An asset transfer goes through exactly when the sender has a
    record of the asset holding at least the amount; it then takes the
    amount from the sender's holding and adds it to the recipient's,
    creating the recipient's record when there is none, and otherwise
    changes no holding. Balances and [total_supply] stay as they were. *)
Theorem asset_transfer_effect s tx addr dpa_id' :
  data_startswith "issue:" (data tx) = false →
  data_startswith "transfer:" (data tx) = true →
  let dpa_id := data_dpa_id (data tx) in
  let ok := match dpa_holding s (sender tx) dpa_id with
            | Some h => amount tx <=? h
            | None => false
            end in
  holding_of (process_transaction s tx) addr dpa_id' =
    holding_of s addr dpa_id' +
    (if ok && bool_decide (dpa_id' = dpa_id)
     then (if decide (addr = recipient tx) then amount tx else 0) -
          (if decide (addr = sender tx) then amount tx else 0)
     else 0) ∧
  balance_of (process_transaction s tx) addr = balance_of s addr ∧
  total_supply (process_transaction s tx) = total_supply s.
Proof.
  intros Hi Ht dpa_id ok. subst ok. unfold process_transaction. rewrite Hi, Ht.
  fold dpa_id.
  set (s2 := get_account (get_account s (sender tx)) (recipient tx)).
  assert (is_Some (accounts s2 !! recipient tx)) as Hrecipient.
  { apply get_account_present. }
  assert (∀ k, balance_of s2 k = balance_of s k) as Hbal.
  { intros k. unfold s2. by rewrite !balance_of_get_account. }
  assert (∀ k i, dpa_holding s2 k i = dpa_holding s k i) as Hhold.
  { intros k i. unfold s2. by rewrite !dpa_holding_get_account. }
  assert (total_supply s2 = total_supply s) as Hsupply.
  { unfold s2. by rewrite !(proj1 (total_supply_get_account _ _)). }
  pose proof (dpa_holding_account_at s2 (sender tx) dpa_id) as Hsender.
  rewrite Hhold in Hsender.
  destruct (dpas (account_at s2 (sender tx)) !! dpa_id) as [d|] eqn:Hd;
    cbn in Hsender; rewrite <-Hsender.
  2: { cbn. unfold holding_of. rewrite Hhold, Hbal. repeat split; (done || lia). }
  destruct (amount tx <=? dpa_amount d) eqn:Hle.
  2: { cbn. unfold holding_of. rewrite Hhold, Hbal. repeat split; (done || lia). }
  set (s3 := update_account s2 (sender tx)
               (λ a, set_dpas (alter (add_dpa_amount (- amount tx)) dpa_id (dpas a)) a)).
  assert (dpa_holding s2 (sender tx) dpa_id = Some (dpa_amount d)) as Hh2
    by (by rewrite Hhold).
  assert (∀ k i, holding_of s3 k i =
            holding_of s k i +
            (if decide (k = sender tx ∧ i = dpa_id) then - amount tx else 0)) as H3.
  { intros k i. unfold s3. rewrite (holding_of_alter _ _ _ _ _ _ _ Hh2).
    unfold holding_of. by rewrite Hhold. }
  assert (is_Some (accounts s3 !! recipient tx)) as Hrecipient3.
  { unfold s3. rewrite update_account_lookup.
    case_decide as Heq; [rewrite Heq|done].
    destruct Hrecipient as [a ->]. by eexists. }
  pose proof (dpa_holding_account_at s3 (recipient tx) dpa_id) as Hr3.
  assert (∀ k i,
            (if decide (k = recipient tx ∧ i = dpa_id) then amount tx else 0) +
            (if decide (k = sender tx ∧ i = dpa_id) then - amount tx else 0) =
            (if true && bool_decide (i = dpa_id)
             then (if decide (k = recipient tx) then amount tx else 0) -
                  (if decide (k = sender tx) then amount tx else 0)
             else 0)) as Harith.
  { intros k i. cbn [andb].
    destruct (decide (k = recipient tx)), (decide (k = sender tx)),
      (decide (i = dpa_id));
      rewrite ?bool_decide_eq_true_2, ?bool_decide_eq_false_2 by done;
      repeat (first [rewrite decide_True by done
                    |rewrite decide_False by (intros [? ?]; done)]); lia. }
  destruct (dpas (account_at s3 (recipient tx)) !! dpa_id) as [d'|] eqn:Hd';
    cbn in Hr3.
  - split; [|split].
    + rewrite (holding_of_alter _ _ _ _ _ _ _ (eq_sym Hr3)), H3.
      rewrite <-Harith. lia.
    + unfold s3. by rewrite !balance_of_update_dpas.
    + exact Hsupply.
  - split; [|split].
    + unfold holding_of at 1. rewrite dpa_holding_insert by done.
      rewrite <-Harith.
      destruct (decide (addr = recipient tx ∧ dpa_id' = dpa_id)) as [[-> ->]|Hne].
      * pose proof (H3 (recipient tx) dpa_id) as H3r.
        unfold holding_of at 1 in H3r. rewrite <-Hr3 in H3r.
        cbn [default from_option dpa_amount id] in *. lia.
      * fold (holding_of s3 addr dpa_id'). rewrite H3. lia.
    + unfold s3. by rewrite !balance_of_update_dpas.
    + exact Hsupply.
Qed.

Lemma asset_transfer_effect_witness :
  let s := process_transaction StateManager_init (Sample.tx_issue "A" "X" 10) in
  holding_of s "A" "X" = 10 ∧
  holding_of (process_transaction s (Sample.tx_transfer "A" "B" "X" 4)) "A" "X" = 6 ∧
  holding_of (process_transaction s (Sample.tx_transfer "A" "B" "X" 4)) "B" "X" = 4 ∧
  holding_of (process_transaction s (Sample.tx_transfer "A" "B" "X" 11)) "B" "X" = 0.
Proof.
  intros s. split; [vm_compute; reflexivity|]. split; [|split].
  - rewrite (proj1 (asset_transfer_effect s (Sample.tx_transfer "A" "B" "X" 4)
                      "A" "X" eq_refl eq_refl)).
    vm_compute. reflexivity.
  - rewrite (proj1 (asset_transfer_effect s (Sample.tx_transfer "A" "B" "X" 4)
                      "B" "X" eq_refl eq_refl)).
    vm_compute. reflexivity.
  - rewrite (proj1 (asset_transfer_effect s (Sample.tx_transfer "A" "B" "X" 11)
                      "B" "X" eq_refl eq_refl)).
    vm_compute. reflexivity.
Defined.

Lemma process_transaction_supply s tx :
  total_supply (process_transaction s tx) =
    total_supply s +
    (if data_startswith "issue:" (data tx) then amount tx else 0) ∧
  dpa_registry (process_transaction s tx) = dpa_registry s.
Proof.
  unfold process_transaction.
  destruct (data_startswith "issue:" (data tx)).
  { cbn [total_supply dpa_registry update_account set_accounts].
    by destruct (total_supply_get_account s (recipient tx)) as [-> ->]. }
  set (s2 := get_account (get_account s (sender tx)) (recipient tx)).
  assert (total_supply s2 = total_supply s ∧ dpa_registry s2 = dpa_registry s)
    as [Hsupply Hreg].
  { unfold s2.
    destruct (total_supply_get_account (get_account s (sender tx)) (recipient tx))
      as [-> ->].
    apply total_supply_get_account. }
  destruct (data_startswith "transfer:" (data tx)).
  - destruct (dpas (account_at s2 (sender tx)) !! _);
      [|split; [lia|done]].
    destruct (amount tx <=? _); [|split; [lia|done]].
    destruct (dpas (account_at _ (recipient tx)) !! _);
      cbn [total_supply dpa_registry update_account set_accounts];
      (split; [lia|done]).
  - destruct (amount tx <=? _);
      cbn [total_supply dpa_registry update_account set_accounts];
      (split; [lia|done]).
Qed.

Lemma total_supply_counts_issuances_aux s (txs : list Transaction) :
  total_supply (process_transactions s txs) = total_supply s + issued txs ∧
  dpa_registry (process_transactions s txs) = dpa_registry s.
Proof.
  unfold process_transactions, issued. revert s.
  induction txs as [|tx txs IH]; intros s; [cbn; split; [lia|done]|].
  cbn [foldl]. destruct (IH (process_transaction s tx)) as [-> ->].
  destruct (process_transaction_supply s tx) as [-> ->]. split; [|done].
  destruct (data_startswith "issue:" (data tx)) eqn:Hi.
  - rewrite filter_cons_True by done. cbn [fmap list_fmap foldr]. lia.
  - rewrite filter_cons_False by (rewrite Hi; done). lia.
Qed.

(** X9. Over any run of transactions [total_supply] grows by the amounts
    of the issuances in it and by nothing else, and the manager's
    [dpa_registry] is never written. *)
Theorem total_supply_counts_issuances s (txs : list Transaction) :
  total_supply (process_transactions s txs) = total_supply s + issued txs ∧
  dpa_registry (process_transactions s txs) = dpa_registry s.
Proof. apply total_supply_counts_issuances_aux. Qed.

(** X10. An issuance writes the recipient's record of the issued asset
    and [total_supply], and nothing else: every other holding and every
    balance stay as they were, and no account is made for the sender. *)
Theorem issuance_frame s tx addr dpa_id' :
  data_startswith "issue:" (data tx) = true →
  (addr ≠ recipient tx ∨ dpa_id' ≠ data_dpa_id (data tx) →
     dpa_holding (process_transaction s tx) addr dpa_id' =
       dpa_holding s addr dpa_id') ∧
  balance_of (process_transaction s tx) addr = balance_of s addr ∧
  (addr ≠ recipient tx →
     accounts (process_transaction s tx) !! addr = accounts s !! addr).
Proof.
  intros Hi. unfold process_transaction. rewrite Hi.
  split; [|split].
  - intros Hother. unfold dpa_holding at 1. cbn [accounts].
    fold (dpa_holding
            (update_account (get_account s (recipient tx)) (recipient tx)
               (λ a, set_dpas
                  (<[data_dpa_id (data tx) :=
                       {| asset_id := data_dpa_id (data tx); owner := recipient tx;
                          dpa_amount := amount tx;
                          dpa_data := Some {[ "source_tx" := sender tx ]} |}]>
                     (dpas a)) a)) addr dpa_id').
    rewrite dpa_holding_insert by apply get_account_present.
    rewrite decide_False by (intros [? ?]; destruct Hother; done).
    apply dpa_holding_get_account.
  - unfold balance_of at 1. cbn [accounts].
    fold (balance_of
            (update_account (get_account s (recipient tx)) (recipient tx)
               (λ a, set_dpas
                  (<[data_dpa_id (data tx) :=
                       {| asset_id := data_dpa_id (data tx); owner := recipient tx;
                          dpa_amount := amount tx;
                          dpa_data := Some {[ "source_tx" := sender tx ]} |}]>
                     (dpas a)) a)) addr).
    by rewrite balance_of_update_dpas, balance_of_get_account.
  - intros Hne. cbn [accounts]. rewrite update_account_lookup.
    rewrite decide_False by done. rewrite get_account_lookup_cases.
    destruct (accounts s !! addr); [done|]. by rewrite decide_False.
Qed.

Lemma issuance_frame_witness :
  let s := process_transaction StateManager_init (Sample.tx_issue "A" "X" 10) in
  dpa_holding (process_transaction s (Sample.tx_issue "B" "Y" 3)) "A" "X" = Some 10 ∧
  accounts (process_transaction s (Sample.tx_issue "B" "Y" 3)) !! "treasury" = None.
Proof.
  intros s.
  destruct (issuance_frame s (Sample.tx_issue "B" "Y" 3) "A" "X" eq_refl)
    as (Hhold & _ & _).
  destruct (issuance_frame s (Sample.tx_issue "B" "Y" 3) "treasury" "X" eq_refl)
    as (_ & _ & Hacc).
  split.
  - rewrite Hhold; [vm_compute; reflexivity|]. left. discriminate.
  - rewrite Hacc; [vm_compute; reflexivity|]. discriminate.
Defined.

Lemma state_keyed_get_account s addr :
  state_keyed s → state_keyed (get_account s addr).
Proof.
  intros Hs k a. rewrite get_account_lookup_cases.
  destruct (accounts s !! k) as [a0|] eqn:Hk.
  - intros [= <-]. by apply Hs.
  - case_decide; [|done]. intros [= <-]. subst. split; [done|].
    intros i d. unfold new_account. cbn [dpas]. by rewrite lookup_empty.
Qed.

Lemma state_keyed_update s addr f :
  (∀ a, (address a = addr ∧
         ∀ i d, dpas a !! i = Some d → asset_id d = i ∧ owner d = addr) →
        address (f a) = addr ∧
        ∀ i d, dpas (f a) !! i = Some d → asset_id d = i ∧ owner d = addr) →
  state_keyed s → state_keyed (update_account s addr f).
Proof.
  intros Hf Hs k a. rewrite update_account_lookup.
  case_decide; [|by apply Hs]. subst.
  destruct (accounts s !! k) as [a0|] eqn:Hk; [|done].
  intros [= <-]. apply Hf. by apply Hs.
Qed.

Lemma keyed_alter_amount addr dpa_id delta a :
  (address a = addr ∧
   ∀ i d, dpas a !! i = Some d → asset_id d = i ∧ owner d = addr) →
  address (set_dpas (alter (add_dpa_amount delta) dpa_id (dpas a)) a) = addr ∧
  ∀ i d, dpas (set_dpas (alter (add_dpa_amount delta) dpa_id (dpas a)) a) !! i = Some d →
         asset_id d = i ∧ owner d = addr.
Proof.
  intros [Haddr Hd]. split; [done|]. intros i d. cbn [dpas set_dpas].
  rewrite lookup_alter. case_decide; [|by apply Hd]. subst.
  destruct (dpas a !! i) as [d0|] eqn:Hi; [|done].
  intros [= <-]. exact (Hd _ _ Hi).
Qed.

Lemma keyed_insert addr dpa_id new_dpa a :
  asset_id new_dpa = dpa_id → owner new_dpa = addr →
  (address a = addr ∧
   ∀ i d, dpas a !! i = Some d → asset_id d = i ∧ owner d = addr) →
  address (set_dpas (<[dpa_id := new_dpa]> (dpas a)) a) = addr ∧
  ∀ i d, dpas (set_dpas (<[dpa_id := new_dpa]> (dpas a)) a) !! i = Some d →
         asset_id d = i ∧ owner d = addr.
Proof.
  intros Hid Hown [Haddr Hd]. split; [done|]. intros i d. cbn [dpas set_dpas].
  rewrite lookup_insert. case_decide; [|by apply Hd]. subst. by intros [= <-].
Qed.

Lemma state_keyed_process_transaction s tx :
  state_keyed s → state_keyed (process_transaction s tx).
Proof.
  intros Hs. unfold process_transaction.
  destruct (data_startswith "issue:" (data tx)).
  { intros k a. cbn [accounts]. revert k a.
    apply state_keyed_update; [|by apply state_keyed_get_account].
    intros a. by apply keyed_insert. }
  set (s2 := get_account (get_account s (sender tx)) (recipient tx)).
  assert (state_keyed s2) as Hs2 by (by do 2 apply state_keyed_get_account).
  destruct (data_startswith "transfer:" (data tx)).
  - destruct (dpas (account_at s2 (sender tx)) !! _); [|done].
    destruct (amount tx <=? _); [|done].
    destruct (dpas (account_at _ (recipient tx)) !! _).
    + apply state_keyed_update; [intros a; apply keyed_alter_amount|].
      apply state_keyed_update; [intros a; apply keyed_alter_amount|done].
    + apply state_keyed_update; [intros a; by apply keyed_insert|].
      apply state_keyed_update; [intros a; apply keyed_alter_amount|done].
  - destruct (amount tx <=? _); [|done].
    by do 2 (apply state_keyed_update; [by intros a [? ?]|]).
Qed.

(** X11. In every state reached from the empty one, each account sits
    under its own address, and each asset record sits under its own id
    in the account of its owner. *)
Theorem state_stays_keyed (txs : list Transaction) :
  ∀ addr a,
    accounts (process_transactions StateManager_init txs) !! addr = Some a →
    address a = addr ∧
    ∀ dpa_id d, dpas a !! dpa_id = Some d → asset_id d = dpa_id ∧ owner d = addr.
Proof.
  assert (∀ s, state_keyed s → state_keyed (process_transactions s txs)) as H.
  { unfold process_transactions.
    induction txs as [|tx txs IH]; intros s Hs; [done|].
    cbn [foldl]. by apply IH, state_keyed_process_transaction. }
  apply H. intros k a. unfold StateManager_init. cbn [accounts].
  by rewrite lookup_empty.
Qed.

Lemma state_stays_keyed_witness :
  ∃ a d, accounts (process_transactions StateManager_init
                     [Sample.tx_issue "A" "X" 10; Sample.tx_transfer "A" "B" "X" 4])
           !! "B" = Some a ∧
         dpas a !! "X" = Some d ∧ address a = "B" ∧ owner d = "B".
Proof.
  pose proof (state_stays_keyed
                [Sample.tx_issue "A" "X" 10; Sample.tx_transfer "A" "B" "X" 4] "B")
    as Hkeyed.
  destruct (accounts (process_transactions StateManager_init
                        [Sample.tx_issue "A" "X" 10; Sample.tx_transfer "A" "B" "X" 4])
              !! "B") as [a|] eqn:Ha; [|by vm_compute in Ha].
  destruct (Hkeyed a eq_refl) as [Haddr Hd].
  destruct (dpas a !! "X") as [d|] eqn:HX.
  - exists a, d. destruct (Hd "X" d HX) as [_ Hown]. done.
  - exfalso. vm_compute in Ha. injection Ha as <-. by vm_compute in HX.
Defined.

Lemma dom_get_account s addr :
  dom (accounts (get_account s addr)) = dom (accounts s) ∪ {[addr]}.
Proof.
  unfold get_account. destruct (accounts s !! addr) as [a|] eqn:Ha.
  - apply (elem_of_dom_2 (D := gset string)) in Ha. set_solver.
  - cbn [set_accounts accounts]. rewrite dom_insert_L. set_solver.
Qed.

Lemma dom_update_account s addr f :
  dom (accounts (update_account s addr f)) = dom (accounts s).
Proof. unfold update_account. cbn [set_accounts accounts]. apply dom_alter_L. Qed.

(** X12. Accounts are made on first mention and never removed: an
    issuance adds the recipient's account, every other transaction adds
    the sender's and the recipient's, also when the transfer itself is
    refused. *)
Theorem accounts_made_on_first_mention s tx :
  dom (accounts (process_transaction s tx)) =
    dom (accounts s) ∪
    (if data_startswith "issue:" (data tx) then {[recipient tx]}
     else {[sender tx; recipient tx]}).
Proof.
  unfold process_transaction.
  destruct (data_startswith "issue:" (data tx)).
  { cbn [accounts]. rewrite dom_update_account. apply dom_get_account. }
  set (s2 := get_account (get_account s (sender tx)) (recipient tx)).
  assert (dom (accounts s2) = dom (accounts s) ∪ {[sender tx; recipient tx]}) as Hs2.
  { unfold s2. rewrite !dom_get_account. set_solver. }
  destruct (data_startswith "transfer:" (data tx)).
  - destruct (dpas (account_at s2 (sender tx)) !! _); [|done].
    destruct (amount tx <=? _); [|done].
    destruct (dpas (account_at _ (recipient tx)) !! _);
      by rewrite !dom_update_account.
  - destruct (amount tx <=? _); [|done]. by rewrite !dom_update_account.
Qed.

End state_more.

(** ** More on the ledger *)

Section ledger_more.

Implicit Types (l : Ledger) (b : Block) (tx : Transaction) (c : ledger_call).

Lemma propose_new_block_total now l p :
  chain l ≠ [] → ∃ o l', propose_new_block now l p = Ok (o, l').
Proof.
  intros Hne. unfold propose_new_block, get_latest_block.
  destruct (last (chain l)) as [tip|] eqn:Hlast; [|by apply last_None in Hlast].
  cbn [bind]. destruct (decide _); [by eexists _, _|].
  destruct (dict_values (mempool l)) as [|t ts] eqn:Hm; [by eexists _, _|].
  destruct (create_block_total now (hash_block_header (header tip)) (t :: ts) p)
    as (mt & _ & ->).
  cbn [bind]. by eexists _, _.
Qed.

(** What one call does to the chain and the state: nothing, or one block
    appended that names the tip and is committed. *)
Lemma run_call_effect l c l' :
  run_call l c = Ok l' →
  validator_registry l' = validator_registry l ∧
  proposer_rotation l' = proposer_rotation l ∧
  ((chain l' = chain l ∧ state_manager l' = state_manager l) ∨
   (∃ b tip, last (chain l) = Some tip ∧
      prev_hash (header b) = hash_block_header (header tip) ∧
      chain l' = chain l ++ [b] ∧
      state_manager l' = commit_block (state_manager l) b)).
Proof.
  assert (∀ l0 b0 r l1, add_block l0 b0 = Ok (r, l1) →
    validator_registry l1 = validator_registry l0 ∧
    proposer_rotation l1 = proposer_rotation l0 ∧
    ((chain l1 = chain l0 ∧ state_manager l1 = state_manager l0) ∨
     (∃ b tip, last (chain l0) = Some tip ∧
        prev_hash (header b) = hash_block_header (header tip) ∧
        chain l1 = chain l0 ++ [b] ∧
        state_manager l1 = commit_block (state_manager l0) b))) as Hadd.
  { intros l0 b0 r l1 (tip & Htip & Hvalid & ->)%add_block_inv.
    destruct r; [|auto]. cbn. split; [done|]. split; [done|]. right.
    exists b0, tip. unfold get_latest_block in Htip.
    destruct (last (chain l0)); simplify_eq.
    split; [done|]. split; [by apply is_block_valid_true|done]. }
  destruct c as [tx|now p|b|now p]; cbn [run_call].
  - intros [= <-]. destruct (add_transaction_cases l tx) as [-> | ->]; cbn; auto.
  - destruct (propose_new_block now l p) as [[o l1]|] eqn:Hp; [|done].
    cbn [bind]. intros [= <-].
    apply propose_new_block_inv in Hp as (tip & _ & Ho).
    destruct o; [destruct Ho as (-> & _)|destruct Ho as (-> & _)]; cbn; auto.
  - destruct (add_block l b) as [[r l1]|] eqn:Ha; [|done].
    cbn [bind]. intros [= <-]. by eapply Hadd.
  - unfold run_consensus_round.
    destruct (propose_new_block now l p) as [[o l1]|] eqn:Hp; [|done].
    cbn [bind]. apply propose_new_block_inv in Hp as (tip & _ & Ho).
    destruct o as [b|].
    + destruct Ho as (-> & _).
      destruct (add_block (set_mempool l []) b) as [[r l2]|] eqn:Ha; [|done].
      cbn [bind]. intros [= <-]. by apply Hadd in Ha.
    + destruct Ho as (-> & _). cbn [bind]. intros [= <-]. auto.
Qed.

Lemma run_call_total l c : chain l ≠ [] → ∃ l', run_call l c = Ok l'.
Proof.
  intros Hne. destruct c as [tx|now p|b|now p]; cbn [run_call].
  - by eexists.
  - destruct (propose_new_block_total now l p Hne) as (o & l' & ->). by eexists.
  - destruct (add_block_total l b Hne) as (r & l' & ->). by eexists.
  - unfold run_consensus_round.
    destruct (propose_new_block_total now l p Hne) as (o & l1 & Hp).
    rewrite Hp. cbn [bind].
    apply propose_new_block_inv in Hp as (tip & _ & Ho).
    destruct o as [b|]; [|by eexists].
    destruct Ho as (-> & _).
    destruct (add_block_total (set_mempool l []) b Hne) as (r & l2 & ->).
    by eexists.
Qed.

Lemma run_calls_invariant (P : Ledger → Prop) cs l :
  (∀ l0 c l1, chain l0 ≠ [] → P l0 → run_call l0 c = Ok l1 → P l1) →
  chain l ≠ [] → P l →
  ∃ l', run_calls l cs = Ok l' ∧ chain l' ≠ [] ∧ P l'.
Proof.
  intros Hstep. revert l. induction cs as [|c cs IH]; intros l Hne HP.
  { by exists l. }
  destruct (run_call_total l c Hne) as [l1 Hl1].
  cbn [run_calls]. rewrite Hl1. cbn [bind]. apply IH.
  - destruct (run_call_effect _ _ _ Hl1) as (_ & _ & [[-> _]|(b & tip & _ & _ & -> & _)]);
      [done|]. intros Hnil. by apply app_eq_nil in Hnil as [_ ?].
  - by eapply Hstep.
Qed.

(** X13. Whatever calls are made on a ledger built on a genesis block, in
    whatever order, none raises; the genesis block stays first; every
    later block carries the hash of the header before it; and the
    registry and the rotation stay those of the construction. *)
Theorem ledger_calls_keep_chain genesis registry (cs : list ledger_call) :
  ∃ l, run_calls (Ledger_init genesis registry) cs = Ok l ∧
    (∃ rest, chain l = genesis :: rest) ∧
    (∀ i prev cur,
       chain l !! i = Some prev → chain l !! S i = Some cur →
       prev_hash (header cur) = hash_block_header (header prev)) ∧
    validator_registry l = registry ∧
    proposer_rotation l = ProposerRotation_init (get_validators registry).
Proof.
  destruct (run_calls_invariant
              (λ l, (∃ rest, chain l = genesis :: rest) ∧ chain_linked (chain l) ∧
                    validator_registry l = registry ∧
                    proposer_rotation l = ProposerRotation_init (get_validators registry))
              cs (Ledger_init genesis registry))
    as (l & Hl & _ & HP); [| done | | by exists l].
  - intros l0 c l1 Hne ([rest Hrest] & Hlinked & Hreg & Hrot) Hcall.
    destruct (run_call_effect _ _ _ Hcall)
      as (-> & -> & [[-> _]|(b & tip & Htip & Hprev & -> & _)]).
    + eauto.
    + split; [|split; [|done]].
      * exists (rest ++ [b]). by rewrite Hrest.
      * by eapply chain_linked_snoc.
  - split; [by exists []|]. split; [|done]. intros i prev cur _ HSi. by destruct i.
Qed.

Lemma ledger_calls_keep_chain_witness :
  ∃ l, run_calls Sample.ledger0
         [CallAddTransaction Sample.tx_ab; CallProposeNewBlock Sample.clock "v2";
          CallAddBlock Sample.stray_block; CallConsensusRound Sample.clock "v1"]
       = Ok l ∧
       chain l = [Sample.genesis_block; Sample.block1] ∧
       prev_hash (header Sample.block1) =
         hash_block_header (header Sample.genesis_block).
Proof.
  destruct (ledger_calls_keep_chain Sample.genesis_block Sample.registry
              [CallAddTransaction Sample.tx_ab; CallProposeNewBlock Sample.clock "v2";
               CallAddBlock Sample.stray_block; CallConsensusRound Sample.clock "v1"])
    as (l & Hl & _ & Hlinked & _).
  exists l. split; [exact Hl|].
  assert (chain l = [Sample.genesis_block; Sample.block1]) as Hchain.
  { change (Ledger_init Sample.genesis_block Sample.registry)
      with Sample.ledger0 in Hl.
    assert (∃ l0, run_calls Sample.ledger0
                    [CallAddTransaction Sample.tx_ab;
                     CallProposeNewBlock Sample.clock "v2";
                     CallAddBlock Sample.stray_block;
                     CallConsensusRound Sample.clock "v1"] = Ok l0 ∧
                  chain l0 = [Sample.genesis_block; Sample.block1])
      as (l0 & Hl0 & Hc0) by (eexists; split; vm_compute; reflexivity).
    rewrite Hl0 in Hl. by injection Hl as <-. }
  split; [exact Hchain|].
  apply (Hlinked 0%nat); by rewrite Hchain.
Defined.

(** X14. In every ledger so reached the account and asset state is what
    committing the blocks of the chain one after the other, genesis
    first, gives from the empty state; so the balances sum to zero, and
    [total_supply] is the sum of the issuances in the chain. *)
Theorem ledger_state_follows_chain genesis registry (cs : list ledger_call) :
  ∃ l, run_calls (Ledger_init genesis registry) cs = Ok l ∧
    state_manager l = foldl commit_block StateManager_init (chain l) ∧
    sum_balances (state_manager l) = 0 ∧
    total_supply (state_manager l) = issued (chain l ≫= transactions).
Proof.
  destruct (run_calls_invariant
              (λ l, state_manager l = foldl commit_block StateManager_init (chain l))
              cs (Ledger_init genesis registry))
    as (l & Hl & _ & HP); [| done | done |].
  - intros l0 c l1 Hne Hstate Hcall.
    destruct (run_call_effect _ _ _ Hcall)
      as (_ & _ & [[-> ->]|(b & tip & _ & _ & -> & ->)]); [done|].
    by rewrite foldl_app, Hstate.
  - exists l. split; [done|]. split; [done|].
    rewrite HP. clear.
    assert (∀ s, foldl commit_block s (chain l) =
                 process_transactions s (chain l ≫= transactions)) as ->.
    { unfold commit_block, process_transactions.
      induction (chain l) as [|b bs IH]; intros s; [done|].
      cbn [foldl mbind list_bind]. change (mbind transactions bs) with (bs ≫= transactions).
      by rewrite foldl_app, IH. }
    split.
    + by rewrite sum_balances_process_transactions.
    + destruct (total_supply_counts_issuances_aux StateManager_init
                  (chain l ≫= transactions)) as [-> _].
      unfold StateManager_init. cbn [total_supply]. lia.
Qed.

Lemma validate_transaction_true (m : pydict Transaction) tx :
  validate_transaction m tx = true →
  ((sender tx, nonce tx) ∉ ((λ t, (sender t, nonce t)) <$> dict_values m)) ∧
  0 < amount tx ∧ sender tx ≠ EmptyString ∧ recipient tx ≠ EmptyString.
Proof.
  intros Hv.
  assert (¬ ((∃ t, t ∈ dict_values m ∧ sender t = sender tx ∧ nonce t = nonce tx) ∨
             amount tx ≤ 0 ∨ sender tx = EmptyString ∨ recipient tx = EmptyString))
    as Hok.
  { intros Hbad%validate_transaction_false. congruence. }
  split; [|split; [|split]].
  - intros (t & [= Hs Hn] & Ht)%list_elem_of_fmap. apply Hok. left. by exists t.
  - destruct (decide (0 < amount tx)); [done|]. exfalso. apply Hok. right. left. lia.
  - intros Hs. apply Hok. auto.
  - intros Hr. apply Hok. auto.
Qed.

Lemma mempool_wf_add_transaction l tx :
  mempool_wf (mempool l) → mempool_wf (mempool (add_transaction l tx).2).
Proof.
  intros (Hkeys & Hpairs & Hall).
  destruct (decide (hash_transaction tx ∈ (mempool l).*1)) as [Hdup|Hfresh].
  { rewrite add_transaction_rejected by auto. done. }
  destruct (validate_transaction (mempool l) tx) eqn:Hv.
  2: { rewrite add_transaction_rejected by auto. done. }
  rewrite add_transaction_admitted by done. cbn [snd set_mempool mempool].
  apply validate_transaction_true in Hv as (Hpair & Hamt & Hs & Hr).
  unfold mempool_wf, dict_values. rewrite !fmap_app. cbn [fmap list_fmap fst snd].
  split; [|split].
  - apply NoDup_app. split; [done|]. split; [|apply NoDup_singleton].
    intros k Hk ->%list_elem_of_singleton. done.
  - apply NoDup_app. split; [done|]. split; [|apply NoDup_singleton].
    intros k Hk ->%list_elem_of_singleton. done.
  - apply Forall_app. split; [done|]. by repeat constructor.
Qed.

(** X15. In every ledger reached by such calls the mempool holds each
    pending transaction under its own hash, no key twice and no two
    entries with the same sender and nonce, and every entry has a
    positive amount and a non-empty sender and recipient. *)
Theorem mempool_stays_well_formed genesis registry (cs : list ledger_call) :
  ∃ l, run_calls (Ledger_init genesis registry) cs = Ok l ∧
    NoDup (mempool l).*1 ∧
    NoDup ((λ t, (sender t, nonce t)) <$> dict_values (mempool l)) ∧
    Forall (λ kv, kv.1 = hash_transaction kv.2 ∧ 0 < amount kv.2 ∧
                  sender kv.2 ≠ EmptyString ∧ recipient kv.2 ≠ EmptyString)
      (mempool l).
Proof.
  destruct (run_calls_invariant (λ l, mempool_wf (mempool l))
              cs (Ledger_init genesis registry))
    as (l & Hl & _ & HP); [| done | | by exists l].
  2: { repeat split; constructor. }
  intros l0 c l1 Hne Hwf Hcall.
  assert (mempool_wf ([] : pydict Transaction)) as Hempty
    by (repeat split; constructor).
  destruct c as [tx|now p|b|now p]; cbn [run_call] in Hcall.
  - injection Hcall as <-. by apply mempool_wf_add_transaction.
  - destruct (propose_new_block now l0 p) as [[o l2]|] eqn:Hp; [|done].
    cbn [bind] in Hcall. injection Hcall as <-.
    apply propose_new_block_inv in Hp as (tip & _ & Ho).
    destruct o; [destruct Ho as (-> & _)|destruct Ho as (-> & _)]; done.
  - destruct (add_block l0 b) as [[r l2]|] eqn:Ha; [|done].
    cbn [bind] in Hcall. injection Hcall as <-.
    apply add_block_inv in Ha as (tip & _ & _ & ->). by destruct r.
  - unfold run_consensus_round in Hcall.
    destruct (propose_new_block now l0 p) as [[o l2]|] eqn:Hp; [|done].
    cbn [bind] in Hcall.
    apply propose_new_block_inv in Hp as (tip & _ & Ho).
    destruct o as [b|].
    + destruct Ho as (-> & _).
      destruct (add_block (set_mempool l0 []) b) as [[r l3]|] eqn:Ha; [|done].
      cbn [bind] in Hcall. injection Hcall as <-.
      apply add_block_inv in Ha as (tip' & _ & _ & ->). by destruct r.
    + destruct Ho as (-> & _). cbn [bind] in Hcall. by injection Hcall as <-.
Qed.

(** X16. A consensus round on a ledger with tip [tip] succeeds exactly
    when the proposer is the rotation's proposer for the tip header's
    [nonce] plus one and the mempool is not empty. It then appends one
    block that lists every pending transaction in the order of admission,
    names the tip, and is committed to the state, and it empties the
    mempool; otherwise it returns [False] and leaves the ledger as it
    was. *)
Theorem consensus_round_effect now l p tip :
  last (chain l) = Some tip →
  if bool_decide (Some p = get_current_proposer (proposer_rotation l)
                             (header_nonce (header tip) + 1))
     && negb (bool_decide (mempool l = []))
  then ∃ b,
    create_block now (hash_block_header (header tip)) (dict_values (mempool l)) p
      = Ok b ∧
    transactions b = dict_values (mempool l) ∧
    prev_hash (header b) = hash_block_header (header tip) ∧
    validator (header b) = p ∧
    run_consensus_round now l p =
      Ok (true, {| chain := chain l ++ [b];
                   mempool := [];
                   state_manager := commit_block (state_manager l) b;
                   validator_registry := validator_registry l;
                   proposer_rotation := proposer_rotation l |})
  else run_consensus_round now l p = Ok (false, l).
Proof.
  intros Htip. unfold run_consensus_round, propose_new_block, get_latest_block.
  rewrite Htip. cbn [bind].
  destruct (decide (Some p ≠ _)) as [Hturn|Hturn].
  { rewrite bool_decide_eq_false_2 by done. done. }
  apply dec_stable in Hturn. rewrite bool_decide_eq_true_2 by done. cbn [andb].
  destruct (mempool l) as [|kv m] eqn:Hm.
  { rewrite bool_decide_eq_true_2 by done. done. }
  rewrite bool_decide_eq_false_2 by done. cbn [negb].
  cbn [dict_values fmap list_fmap].
  destruct (create_block_total now (hash_block_header (header tip)) (kv.2 :: m.*2) p)
    as (t & Ht & Hb).
  rewrite Hb. cbn [bind].
  eexists. split; [done|]. cbn [transactions header prev_hash validator].
  split; [done|]. split; [done|]. split; [done|].
  unfold add_block, get_latest_block. cbn [set_mempool chain]. rewrite Htip.
  cbn [bind].
  rewrite (create_block_valid _ _ _ _ _ Hb). cbn [bind negb].
  reflexivity.
Qed.

Lemma consensus_round_effect_witness :
  run_consensus_round Sample.clock Sample.ledger1 "v2" = Ok (false, Sample.ledger1) ∧
  ∃ b, transactions b = [Sample.tx_ab] ∧
       run_consensus_round Sample.clock Sample.ledger1 "v1" =
         Ok (true, {| chain := chain Sample.ledger1 ++ [b];
                      mempool := [];
                      state_manager := commit_block (state_manager Sample.ledger1) b;
                      validator_registry := validator_registry Sample.ledger1;
                      proposer_rotation := proposer_rotation Sample.ledger1 |}).
Proof.
  assert (last (chain Sample.ledger1) = Some Sample.genesis_block) as Htip
    by reflexivity.
  split.
  - pose proof (consensus_round_effect Sample.clock Sample.ledger1 "v2" _ Htip) as H.
    assert (bool_decide (Some "v2" =
              get_current_proposer (proposer_rotation Sample.ledger1)
                (header_nonce (header Sample.genesis_block) + 1)) = false) as Hno
      by (vm_compute; reflexivity).
    rewrite Hno in H. exact H.
  - pose proof (consensus_round_effect Sample.clock Sample.ledger1 "v1" _ Htip) as H.
    assert (bool_decide (Some "v1" =
              get_current_proposer (proposer_rotation Sample.ledger1)
                (header_nonce (header Sample.genesis_block) + 1))
            && negb (bool_decide (mempool Sample.ledger1 = [])) = true) as Hyes
      by (vm_compute; reflexivity).
    rewrite Hyes in H. destruct H as (b & _ & Htxs & _ & _ & Hround).
    exists b. split; [|exact Hround].
    rewrite Htxs. vm_compute. reflexivity.
Defined.

(** X17. [get_block_by_hash] returns a block of the chain whose header
    hashes to the given value, the first such block, and [None] exactly
    when no block of the chain does; in particular every block of the
    chain is found, up to the header hash, under its own hash. *)
Theorem get_block_by_hash_finds l (block_hash : string) :
  match get_block_by_hash l block_hash with
  | Some b =>
      ∃ i, chain l !! i = Some b ∧
           hash_block_header (header b) = block_hash ∧
           ∀ j b', chain l !! j = Some b' → (j < i)%nat →
                   hash_block_header (header b') ≠ block_hash
  | None => ∀ b, b ∈ chain l → hash_block_header (header b) ≠ block_hash
  end.
Proof.
  unfold get_block_by_hash.
  destruct (list_find _ (chain l)) as [[i b]|] eqn:Hfind; cbn [fmap option_fmap option_map snd].
  - apply list_find_Some in Hfind as (Hi & Hb & Hfirst). exists i. eauto.
  - apply list_find_None in Hfind. intros b Hb.
    by apply (proj1 (Forall_forall _ _) Hfind).
Qed.

Lemma get_block_by_hash_finds_witness :
  get_block_by_hash Sample.ledger3
    (hash_block_header (header Sample.block1)) = Some Sample.block1 ∧
  chain Sample.ledger3 !! 1%nat = Some Sample.block1 ∧
  get_block_by_hash Sample.ledger3 Sample.zero_hash = None.
Proof.
  pose proof (get_block_by_hash_finds Sample.ledger3
                (hash_block_header (header Sample.block1))) as Hfound.
  assert (get_block_by_hash Sample.ledger3
            (hash_block_header (header Sample.block1)) = Some Sample.block1) as Hb
    by (vm_compute; reflexivity).
  rewrite Hb in Hfound. destruct Hfound as (i & Hi & _ & Hfirst).
  split; [exact Hb|]. split; [vm_compute; reflexivity|].
  vm_compute. reflexivity.
Defined.

End ledger_more.

(** ** The validator registry and the rotation seeded from it *)

Section registry_more.

Implicit Types (r : ValidatorRegistry) (vid pk : string) (st : Z)
  (d : pydict Validator) (v : Validator).

Lemma dict_get_None {V} (m : pydict V) k : dict_get m k = None ↔ k ∉ m.*1.
Proof.
  induction m as [|[k' x] m IH]; cbn [dict_get fmap list_fmap fst].
  - split; [intros _; apply not_elem_of_nil|done].
  - rewrite not_elem_of_cons. case_decide; [subst; naive_solver|].
    rewrite IH. naive_solver.
Qed.

Lemma dict_get_snoc {V} (m : pydict V) k x k' :
  k ∉ m.*1 →
  dict_get (m ++ [(k, x)]) k' = if decide (k' = k) then Some x else dict_get m k'.
Proof.
  intros Hk. induction m as [|[k0 x0] m IH]; cbn [dict_get app].
  - destruct (decide (k = k')), (decide (k' = k)); congruence.
  - cbn [fmap list_fmap fst] in Hk. apply not_elem_of_cons in Hk as [Hne Hk].
    destruct (decide (k0 = k')) as [->|].
    + by rewrite decide_False.
    + by apply IH.
Qed.

Lemma dict_del_snoc {V} (m : pydict V) k x :
  k ∉ m.*1 → dict_del (m ++ [(k, x)]) k = m.
Proof.
  intros Hk. induction m as [|[k0 x0] m IH]; cbn [dict_del app].
  - by rewrite decide_True.
  - cbn [fmap list_fmap fst] in Hk. apply not_elem_of_cons in Hk as [Hne Hk].
    rewrite decide_False by done. by rewrite IH.
Qed.

Lemma dict_del_keys {V} (m : pydict V) k :
  NoDup m.*1 → NoDup (dict_del m k).*1 ∧ (k ∉ (dict_del m k).*1) ∧
  ∀ kv, kv ∈ dict_del m k ↔ kv ∈ m ∧ kv.1 ≠ k.
Proof.
  induction m as [|[k0 x0] m IH]; cbn [dict_del fmap list_fmap fst].
  { intros _. split; [constructor|]. split; [apply not_elem_of_nil|].
    intros kv. split; [by intros ?%elem_of_nil|by intros [?%elem_of_nil _]]. }
  intros [Hk0 Hnd]%NoDup_cons. destruct (IH Hnd) as (IH1 & IH2 & IH3).
  destruct (decide (k0 = k)) as [->|Hne].
  - split; [done|]. split; [done|]. intros kv. rewrite elem_of_cons.
    split.
    + intros Hkv. split; [by right|]. intros <-. apply Hk0.
      by apply (list_elem_of_fmap_2 fst) in Hkv.
    + intros [[->|Hkv] Hneq]; done.
  - cbn [fmap list_fmap fst]. split.
    + apply NoDup_cons. split; [|done]. intros Hin.
      apply list_elem_of_fmap in Hin as (kv & -> & Hkv). apply IH3 in Hkv as [Hkv _].
      apply Hk0. by apply (list_elem_of_fmap_2 fst) in Hkv.
    + split; [rewrite not_elem_of_cons; split; [congruence|done]|].
      intros kv. rewrite !elem_of_cons, IH3. naive_solver.
Qed.

(** X18. Registering a new id succeeds and stores a validator with that
    id, the given key and stake, and [is_active] set; [get_validator]
    then finds it and answers for every other id as before, and removing
    the id again restores the registry. Registering an id already present
    and removing an absent one fail and change nothing. *)
Theorem registry_add_get_remove r vid pk st :
  (get_validator r vid = None →
     ∃ r', add_validator r vid pk st = (true, r') ∧
       get_validator r' vid =
         Some {| validator_id := vid; public_key := pk; stake := st;
                 is_active := true |} ∧
       (∀ k, k ≠ vid → get_validator r' k = get_validator r k) ∧
       get_validators r' =
         get_validators r ++ [{| validator_id := vid; public_key := pk;
                                 stake := st; is_active := true |}] ∧
       remove_validator r' vid = (true, r)) ∧
  (get_validator r vid ≠ None → add_validator r vid pk st = (false, r)) ∧
  (get_validator r vid = None → remove_validator r vid = (false, r)).
Proof.
  unfold get_validator, add_validator, remove_validator, get_validators.
  destruct r as [m]. cbn [registry_validators].
  split; [|split].
  - intros Hnone%dict_get_None.
    rewrite (proj2 (dict_contains_false _ _) Hnone).
    rewrite dict_set_fresh by done. eexists. split; [done|].
    cbn [registry_validators]. split; [|split; [|split]].
    + rewrite dict_get_snoc by done. by rewrite decide_True.
    + intros k Hk. rewrite dict_get_snoc by done. by rewrite decide_False.
    + unfold dict_values. by rewrite fmap_app.
    + assert (dict_contains vid (m ++ [(vid, {| validator_id := vid;
                public_key := pk; stake := st; is_active := true |})]) = true) as ->.
      { apply dict_contains_true. rewrite fmap_app. apply elem_of_app. right.
        cbn. apply list_elem_of_here. }
      cbn [negb]. by rewrite dict_del_snoc.
  - intros Hsome.
    assert (dict_contains vid m = true) as ->; [|done].
    apply dict_contains_true. destruct (decide (vid ∈ m.*1)); [done|].
    exfalso. by apply Hsome, dict_get_None.
  - intros Hnone%dict_get_None.
    by rewrite (proj2 (dict_contains_false _ _) Hnone).
Qed.

Lemma registry_add_get_remove_witness :
  get_validator Sample.registry "v3" = None ∧
  ∃ r', add_validator Sample.registry "v3" "pk3" 0 = (true, r') ∧
        get_validator r' "v3" = Some Sample.v3 ∧
        remove_validator r' "v3" = (true, Sample.registry) ∧
        add_validator r' "v3" "other" 1 = (false, r').
Proof.
  assert (get_validator Sample.registry "v3" = None) as Hnone by reflexivity.
  split; [exact Hnone|].
  destruct (registry_add_get_remove Sample.registry "v3" "pk3" 0) as (Hadd & _ & _).
  destruct (Hadd Hnone) as (r' & Hr' & Hget & _ & _ & Hrem).
  exists r'. split; [exact Hr'|]. split; [exact Hget|]. split; [exact Hrem|].
  destruct (registry_add_get_remove r' "v3" "other" 1) as (_ & Hdup & _).
  apply Hdup. by rewrite Hget.
Defined.

Lemma registry_call_keeps_keyed r (c : registry_call) :
  NoDup (registry_validators r).*1 →
  Forall (λ kv, validator_id kv.2 = kv.1) (registry_validators r) →
  NoDup (registry_validators (run_registry_call r c)).*1 ∧
  Forall (λ kv, validator_id kv.2 = kv.1) (registry_validators (run_registry_call r c)).
Proof.
  intros Hnd Hkeyed. destruct c as [vid pk st|vid]; cbn [run_registry_call].
  - unfold add_validator.
    destruct (dict_contains vid (registry_validators r)) eqn:Hc; [done|].
    apply dict_contains_false in Hc. rewrite dict_set_fresh by done.
    cbn [snd registry_validators]. rewrite fmap_app. split.
    + apply NoDup_app. split; [done|]. split; [|apply NoDup_singleton].
      by intros k Hk ->%list_elem_of_singleton.
    + apply Forall_app. split; [done|]. by repeat constructor.
  - unfold remove_validator.
    destruct (dict_contains vid (registry_validators r)); [|done].
    cbn [negb snd registry_validators].
    destruct (dict_del_keys (registry_validators r) vid Hnd) as (Hnd' & _ & Hin).
    split; [done|]. apply Forall_forall. intros kv [Hkv _]%Hin.
    by apply (proj1 (Forall_forall _ _) Hkeyed).
Qed.

(** X19. In a registry reached from the empty one by any run of
    [add_validator] and [remove_validator] calls, every validator is
    stored under its own id, so the validators [get_validators] lists
    have pairwise distinct ids. *)
Theorem registry_ids_distinct (cs : list registry_call) :
  NoDup (validator_id <$> get_validators (run_registry_calls cs)) ∧
  ∀ vid v, get_validator (run_registry_calls cs) vid = Some v → validator_id v = vid.
Proof.
  assert (∀ r, NoDup (registry_validators r).*1 →
               Forall (λ kv, validator_id kv.2 = kv.1) (registry_validators r) →
               NoDup (registry_validators (foldl run_registry_call r cs)).*1 ∧
               Forall (λ kv, validator_id kv.2 = kv.1)
                 (registry_validators (foldl run_registry_call r cs))) as H.
  { induction cs as [|c cs IH]; intros r Hnd Hk; [done|]. cbn [foldl].
    destruct (registry_call_keeps_keyed r c Hnd Hk). by apply IH. }
  destruct (H ValidatorRegistry_init) as [Hnd Hkeyed]; [constructor|constructor|].
  fold (run_registry_calls cs) in Hnd, Hkeyed.
  unfold get_validators, get_validator, dict_values.
  set (m := registry_validators (run_registry_calls cs)) in *.
  assert (validator_id <$> m.*2 = m.*1) as Hids.
  { clear Hnd. induction m as [|[k v] m IH]; [done|].
    apply Forall_cons in Hkeyed as [Hkv Hrest]. cbn in *. by rewrite Hkv, IH. }
  split; [by rewrite Hids|].
  intros vid v. clear Hnd Hids.
  induction m as [|[k v0] m IH]; [done|].
  apply Forall_cons in Hkeyed as [Hkv Hrest]. cbn [dict_get].
  case_decide; [|by apply IH]. subst. by intros [= <-].
Qed.

End registry_more.

Section rotation_more.

Implicit Types (v w : Validator) (vs : list Validator) (h : Z).

(** X20. Every validator the rotation was built from is the proposer of
    one of any [N] heights in a row, [N] being their number, and the
    proposer of a height is always the id of one of them. *)
Theorem every_validator_gets_a_turn vs h0 :
  (∀ v, v ∈ vs →
     ∃ h, h0 ≤ h < h0 + Z.of_nat (length vs) ∧
          get_current_proposer (ProposerRotation_init vs) h = Some (validator_id v)) ∧
  (∀ h p, get_current_proposer (ProposerRotation_init vs) h = Some p →
          p ∈ validator_id <$> vs).
Proof.
  split.
  - intros v Hv.
    assert (v ∈ sorted_by_id vs) as Hin by (by rewrite sorted_by_id_perm).
    apply list_elem_of_lookup in Hin as [j Hj].
    pose proof (lookup_lt_Some _ _ _ Hj) as Hlt.
    rewrite (Permutation_length (sorted_by_id_perm vs)) in Hlt.
    set (N := Z.of_nat (length vs)) in *.
    assert (0 < N) as HN by lia.
    exists (h0 + (Z.of_nat j - (h0 - 1)) mod N). split.
    { pose proof (Z.mod_pos_bound (Z.of_nat j - (h0 - 1)) N HN). lia. }
    rewrite get_current_proposer_lookup.
    unfold num_validators, ProposerRotation_init. cbn [validators].
    rewrite (Permutation_length (sorted_by_id_perm vs)). fold N.
    replace (h0 + (Z.of_nat j - (h0 - 1)) mod N - 1)
      with ((h0 - 1) + (Z.of_nat j - (h0 - 1)) mod N) by lia.
    rewrite Zplus_mod_idemp_r.
    replace (h0 - 1 + (Z.of_nat j - (h0 - 1))) with (Z.of_nat j) by lia.
    rewrite Z.mod_small by lia. rewrite Nat2Z.id.
    by rewrite list_lookup_fmap, Hj.
  - intros h p. rewrite get_current_proposer_lookup.
    unfold ProposerRotation_init. cbn [validators].
    intros Hp%list_elem_of_lookup_2.
    apply list_elem_of_fmap in Hp as (v & -> & Hv).
    apply list_elem_of_fmap_2. by rewrite sorted_by_id_perm in Hv.
Qed.

Lemma every_validator_gets_a_turn_witness :
  ∃ h, 10 ≤ h < 10 + 3 ∧
       get_current_proposer
         (ProposerRotation_init [Sample.v3; Sample.v1; Sample.v2]) h = Some "v1".
Proof.
  destruct (every_validator_gets_a_turn [Sample.v3; Sample.v1; Sample.v2] 10)
    as [Hturn _].
  destruct (Hturn Sample.v1) as (h & Hh & Hp).
  - rewrite !elem_of_cons. auto.
  - exists h. split; [exact Hh|exact Hp].
Defined.

End rotation_more.
